(** * Tic-Tac-Toe: the game state machine and the computer opponent

    A shallow embedding of the [TicTacToe] class of [script.js] and the
    properties of its move handling, termination check, score keeping and
    move selection.

    Modelling conventions.
    - The string tags ['X'] / ['O'], ['pvp'] / ['ai'] and
      ['easy'] / ['medium'] / ['hard'] are closed enumerations; a board
      cell holds [''], ['X'] or ['O'].
    - [this.board] is a JavaScript array: a list of slots, where a slot is
      either a value or a hole (holes only appear when a write lands past
      the end of the array).  Reading a hole, or reading outside the
      array, gives [undefined].
    - Cell numbers are mathematical integers; [Math.random()] is a
      rational in the half-open unit interval.  The three counters of
      the tally are doubles that hold integers: [++] adds one and rounds
      to the nearest double.
    - Methods that only read [this.board] are functions of the board.
      Methods that change the object or call the page (DOM, storage,
      timers) live in a small state-and-log monad: the log records the
      calls made to those collaborators.  The calls succeed, with one
      exception: [updateCellDisplay] throws when the page has no cell of
      the number it is given.  A method that can throw returns how it
      ended. *)

From stdpp Require Import base list numbers.
From Stdlib Require Import Ascii.
From stdpp Require Import strings gmap pretty.

(** ** Values *)

Inductive player := X | O.
Inductive cell := Blank | Mark (p : player).
Inductive mode := Pvp | Ai.
Inductive difficulty := Easy | Medium | Hard.

(** A value used as a subscript of the board or returned as a move: an
    integer, or anything that is not one ([NaN] from [parseInt],
    [undefined]). *)
Inductive key := Idx (z : Z) | NotIdx.

#[global] Instance player_eq_dec : EqDecision player.
Proof. solve_decision. Defined.
#[global] Instance cell_eq_dec : EqDecision cell.
Proof. solve_decision. Defined.
#[global] Instance mode_eq_dec : EqDecision mode.
Proof. solve_decision. Defined.
#[global] Instance difficulty_eq_dec : EqDecision difficulty.
Proof. solve_decision. Defined.
#[global] Instance key_eq_dec : EqDecision key.
Proof. solve_decision. Defined.

(** ** The board array *)

(** [None] is a hole of the array. *)
Abbreviation array := (list (option cell)).

(** Subscripts that address array elements; any other key names an
    ordinary property of the array object. *)
Definition array_index (z : Z) : bool :=
  bool_decide (0 ≤ z < 4294967295)%Z.

(** [board[k]]; [None] is [undefined]. *)
Definition read (b : array) (k : key) : option cell :=
  match k with
  | Idx z => if array_index z then mjoin (b !! Z.to_nat z) else None
  | NotIdx => None
  end.

(** [board[k] = v].  Inside the array the slot is overwritten; past the
    end the array grows, leaving holes in between; a key that is not an
    array index sets a property that no array operation and no test of
    the class can tell from [undefined], so the slots stay as they are. *)
Definition write (b : array) (k : key) (v : cell) : array :=
  match k with
  | Idx z =>
      if array_index z then
        let n := Z.to_nat z in
        if decide (n < length b)
        then <[n := Some v]> b
        else b ++ replicate (n - length b) None ++ [Some v]
      else b
  | NotIdx => b
  end.

(** [Array(9).fill('')] *)
Definition emptyBoard : array := replicate 9 (Some Blank).

(** [board[k] === 'X'], [board[k] === 'O'] and [board[k] === ''] *)
Definition holds (v : cell) (b : array) (z : Z) : bool :=
  bool_decide (read b (Idx z) = Some v).

(** [board.every(cell => cell !== '')]: holes are skipped *)
Definition every_nonblank (b : array) : bool :=
  forallb (λ s, match s with Some Blank => false | _ => true end) b.

(** The number of cells holding a mark. *)
Definition marked (s : option cell) : bool :=
  match s with Some (Mark _) => true | _ => false end.

Definition filled (b : array) : nat := length (List.filter marked b).

(** ** Winning lines and the termination check *)

Definition winningCombinations : list (Z * Z * Z) :=
  [ (0, 1, 2); (3, 4, 5); (6, 7, 8);
    (0, 3, 6); (1, 4, 7); (2, 5, 8);
    (0, 4, 8); (2, 4, 6) ]%Z.

Inductive result :=
  | Win (p : player) (combination : Z * Z * Z)
  | Draw.

#[global] Instance result_eq_dec : EqDecision result.
Proof. solve_decision. Defined.

(** [board[a] && board[a] === board[b] && board[a] === board[c]]:
    the mark in [a] when the test passes. *)
Definition lineWinner (b : array) (l : Z * Z * Z) : option player :=
  let '(a, b', c) := l in
  match read b (Idx a) with
  | Some (Mark p) =>
      if bool_decide (read b (Idx a) = read b (Idx b'))
         && bool_decide (read b (Idx a) = read b (Idx c))
      then Some p else None
  | _ => None
  end.

(** The [for ... of] loop of [checkGameEnd]. *)
Fixpoint firstWin (b : array) (combos : list (Z * Z * Z)) : option result :=
  match combos with
  | [] => None
  | l :: rest =>
      match lineWinner b l with
      | Some p => Some (Win p l)
      | None => firstWin b rest
      end
  end.

(** [checkGameEnd()]; [None] is [null]. *)
Definition checkGameEnd (b : array) : option result :=
  match firstWin b winningCombinations with
  | Some r => Some r
  | None => if every_nonblank b then Some Draw else None
  end.

(** ** Random numbers *)

(** A value of [Math.random()]: the rational
    [numer / (numer + gap + 1)], which ranges over all of [0, 1). *)
Record rand := Rand { numer : nat; gap : nat }.

(** [Math.floor(r * n)] *)
Definition floorTimes (r : rand) (n : nat) : nat :=
  (numer r * n) `div` (numer r + gap r + 1).

(** [r < 0.7] *)
Definition below07 (r : rand) : bool :=
  bool_decide (10 * numer r < 7 * (numer r + gap r + 1)).

(** ** Move selection *)

(** [board.map((cell, index) => cell === '' ? index : null)
         .filter(index => index !== null)]; [map] and [filter] skip
    holes. *)
Fixpoint availableFrom (i : nat) (b : array) : list Z :=
  match b with
  | [] => []
  | s :: rest =>
      match s with
      | Some Blank => Z.of_nat i :: availableFrom (S i) rest
      | _ => availableFrom (S i) rest
      end
  end.

Definition availableMoves (b : array) : list Z := availableFrom 0 b.

Definition getRandomMove (r : rand) (b : array) : key :=
  let moves := availableMoves b in
  if bool_decide (0 < length moves) then
    match moves !! floorTimes r (length moves) with
    | Some z => Idx z
    | None => NotIdx
    end
  else Idx (-1).

(** One of the two loops over [winningCombinations] in
    [getStrategicMove], for the mark [m]. *)
Fixpoint completeLine (m : player) (b : array) (combos : list (Z * Z * Z))
  : option Z :=
  match combos with
  | [] => None
  | (a, b', c) :: rest =>
      if holds (Mark m) b a && holds (Mark m) b b' && holds Blank b c
      then Some c
      else if holds (Mark m) b a && holds (Mark m) b c && holds Blank b b'
      then Some b'
      else if holds (Mark m) b b' && holds (Mark m) b c && holds Blank b a
      then Some a
      else completeLine m b rest
  end.

(** The loops over [corners] and [sides]. *)
Fixpoint firstBlank (b : array) (cells : list Z) : option Z :=
  match cells with
  | [] => None
  | z :: rest => if holds Blank b z then Some z else firstBlank b rest
  end.

Definition corners : list Z := [0; 2; 6; 8]%Z.
Definition sides : list Z := [1; 3; 5; 7]%Z.

(** [r] is the random number the fallback draws if it is reached. *)
Definition getStrategicMove (r : rand) (b : array) : key :=
  match completeLine O b winningCombinations with
  | Some z => Idx z
  | None =>
  match completeLine X b winningCombinations with
  | Some z => Idx z
  | None =>
  if holds Blank b 4 then Idx 4 else
  match firstBlank b corners with
  | Some z => Idx z
  | None =>
  match firstBlank b sides with
  | Some z => Idx z
  | None => getRandomMove r b
  end end end end.

Definition getMediumMove (r1 r2 : rand) (b : array) : key :=
  if below07 r1 then getStrategicMove r2 b else getRandomMove r2 b.

Definition getHardMove (r : rand) (b : array) : key :=
  getStrategicMove r b.

(** ** The game object *)

Record tally := Tally { scoreX : Z; scoreO : Z; scoreDraw : Z }.

Record game := Game {
  board : array;
  currentPlayer : player;
  gameActive : bool;
  gameMode : mode;
  aiDifficulty : difficulty;
  scores : tally
}.

Definition set_board (b : array) (g : game) : game :=
  Game b (currentPlayer g) (gameActive g) (gameMode g) (aiDifficulty g) (scores g).
Definition set_currentPlayer (p : player) (g : game) : game :=
  Game (board g) p (gameActive g) (gameMode g) (aiDifficulty g) (scores g).
Definition set_gameActive (a : bool) (g : game) : game :=
  Game (board g) (currentPlayer g) a (gameMode g) (aiDifficulty g) (scores g).
Definition set_gameMode (m : mode) (g : game) : game :=
  Game (board g) (currentPlayer g) (gameActive g) m (aiDifficulty g) (scores g).
Definition set_aiDifficulty (d : difficulty) (g : game) : game :=
  Game (board g) (currentPlayer g) (gameActive g) (gameMode g) d (scores g).
Definition set_scores (t : tally) (g : game) : game :=
  Game (board g) (currentPlayer g) (gameActive g) (gameMode g) (aiDifficulty g) t.

(** The argument of [updateScore]: ['X'], ['O'] or ['draw']. *)
Inductive winner := Player (p : player) | NoPlayer.

(** Calls to the page, the storage and the timer queue. *)
Inductive effect :=
  | UpdateCellDisplay (index : key) (p : player)
  | HighlightWinningCombination (combination : Z * Z * Z)
  | ShowResult (r : result)
  | HideResult
  | DisableCells
  | ClearCells
  | UpdateScoreDisplay
  | UpdateCurrentPlayerDisplay
  | SafeSetLocalStorage (w : winner) (value : Z)
  | RemoveStoredScores
  | SetTimeoutMakeAIMove.

#[global] Instance winner_eq_dec : EqDecision winner.
Proof. solve_decision. Defined.
#[global] Instance effect_eq_dec : EqDecision effect.
Proof. solve_decision. Defined.

(** A method: from the object before the call to the returned value, the
    object after it, and the calls it made. *)
Definition M (A : Type) : Type := game → A * game * list effect.

#[global] Instance M_ret : MRet M := λ A a g, (a, g, []).
#[global] Instance M_bind : MBind M := λ A B f m g,
  let r1 := m g in
  let r2 := f r1.1.1 r1.1.2 in
  (r2.1.1, r2.1.2, r1.2 ++ r2.2).

Definition this : M game := λ g, (g, g, []).
Definition assign (f : game → game) : M () := λ g, ((), f g, []).
Definition call (e : effect) : M () := λ g, ((), g, [e]).

(** How a call ends: it returns, or an error is thrown that nothing
    catches ([handleCellClick], [makeAIMove], [makeMove] and
    [updateCellDisplay] have no [try]). *)
Inductive completion := Returned | Threw.

#[global] Instance completion_eq_dec : EqDecision completion.
Proof. solve_decision. Defined.

(** [m; k]: the statements [k] run only if [m] has not thrown. *)
Definition unlessThrown (m k : M completion) : M completion :=
  c ← m;
  match c with
  | Returned => k
  | Threw => mret Threw
  end.

(** ** The counters *)

(** The double nearest to an integer, ties going to the even
    significand (53 bits); magnitudes stay far below the largest
    double. *)
Definition nearestDouble (z : Z) : Z :=
  let a := Z.abs z in
  if bool_decide (a < 9007199254740992)%Z then z
  else
    let e := (Z.log2 a - 52)%Z in
    let q := (a `div` 2 ^ e)%Z in
    let r := (a `mod` 2 ^ e)%Z in
    let half := (2 ^ (e - 1))%Z in
    let q' :=
      if bool_decide (r < half)%Z then q
      else if bool_decide (half < r)%Z then (q + 1)%Z
      else if Z.even q then q else (q + 1)%Z in
    (Z.sgn z * (q' * 2 ^ e))%Z.

(** [n++] on a counter. *)
Definition increment (n : Z) : Z := nearestDouble (n + 1).

Definition other (p : player) : player :=
  match p with X => O | O => X end.

Definition updateScore (w : winner) : M () :=
  match w with
  | NoPlayer =>
      assign (λ g, set_scores
        (Tally (scoreX (scores g)) (scoreO (scores g))
           (increment (scoreDraw (scores g))))
        g) ;;
      g ← this;
      call (SafeSetLocalStorage NoPlayer (scoreDraw (scores g)))
  | Player X =>
      assign (λ g, set_scores
        (Tally (increment (scoreX (scores g))) (scoreO (scores g))
           (scoreDraw (scores g)))
        g) ;;
      g ← this;
      call (SafeSetLocalStorage (Player X) (scoreX (scores g)))
  | Player O =>
      assign (λ g, set_scores
        (Tally (scoreX (scores g)) (increment (scoreO (scores g)))
           (scoreDraw (scores g)))
        g) ;;
      g ← this;
      call (SafeSetLocalStorage (Player O) (scoreO (scores g)))
  end ;;
  call UpdateScoreDisplay.

Definition endGame (r : result) : M () :=
  assign (set_gameActive false) ;;
  match r with
  | Win p combination =>
      call (HighlightWinningCombination combination) ;;
      updateScore (Player p) ;;
      call (ShowResult r)
  | Draw =>
      updateScore NoPlayer ;;
      call (ShowResult r)
  end ;;
  call DisableCells.

(** Modelled from the spec: the board is nine cells indexed 0 to 8.
    The page itself is not among the sources; its cells are the nine
    elements that [initializeGame] counts, and [data-index] numbers them
    0 to 8.  [document.querySelector] finds a cell for these numbers and
    gives [null] for every other value of [index]. *)
Definition cellOnPage (index : key) : bool :=
  match index with
  | Idx z => bool_decide (0 ≤ z ≤ 8)%Z
  | NotIdx => false
  end.

(** With no such cell, [cell.textContent = player] throws a
    [TypeError]. *)
Definition updateCellDisplay (index : key) (p : player) : M completion :=
  if cellOnPage index
  then call (UpdateCellDisplay index p) ;; mret Returned
  else mret Threw.

Definition makeMove (index : key) (p : player) : M completion :=
  assign (λ g, set_board (write (board g) index (Mark p)) g) ;;
  unlessThrown (updateCellDisplay index p)
    (g ← this;
     match checkGameEnd (board g) with
     | Some r => endGame r
     | None =>
         assign (set_currentPlayer (other (currentPlayer g))) ;;
         call UpdateCurrentPlayerDisplay
     end ;;
     mret Returned).

Definition handleCellClick (index : key) : M completion :=
  g ← this;
  if negb (gameActive g) || bool_decide (read (board g) index ≠ Some Blank)
  then mret Returned
  else
    unlessThrown (makeMove index (currentPlayer g))
      (g ← this;
       (if gameActive g && bool_decide (gameMode g = Ai)
           && bool_decide (currentPlayer g = O)
        then call SetTimeoutMakeAIMove
        else mret ()) ;;
       mret Returned).

Definition resetGame : M () :=
  assign (set_board emptyBoard) ;;
  assign (set_currentPlayer X) ;;
  assign (set_gameActive true) ;;
  call ClearCells ;;
  call HideResult ;;
  call UpdateCurrentPlayerDisplay.

Definition setGameMode (m : mode) : M () :=
  assign (set_gameMode m) ;;
  resetGame.

Definition resetScores : M () :=
  assign (set_scores (Tally 0 0 0)) ;;
  call RemoveStoredScores ;;
  call UpdateScoreDisplay.

Definition playAgain : M () := resetGame.

(** The [change] listener of the difficulty selector. *)
Definition setDifficulty (d : difficulty) : M () :=
  assign (set_aiDifficulty d).

(** [r1] and [r2] are the values of the first and the second call of
    [Math.random()], if they are made. *)
Definition makeAIMove (r1 r2 : rand) : M completion :=
  g ← this;
  if negb (gameActive g) then mret Returned
  else
    let move :=
      match aiDifficulty g with
      | Easy => getRandomMove r1 (board g)
      | Medium => getMediumMove r1 r2 (board g)
      | Hard => getHardMove r1 (board g)
      end in
    if bool_decide (move ≠ Idx (-1)) then makeMove move O
    else mret Returned.

(** The object built by the constructor, given the three counters read
    from the storage. *)
Definition constructor (x o d : Z) : game :=
  Game emptyBoard X true Pvp Medium (Tally x o d).

(** ** The page: handlers run one at a time, timers fire later *)

(** The object together with the number of [makeAIMove] callbacks that
    have been scheduled and have not fired yet. *)
Record world := World { object : game; timers : nat }.

Inductive event :=
  | CellClick (index : key)
  | TimerFires (r1 r2 : rand)
  | ResetGameClick
  | PlayAgainClick
  | ResetScoresClick
  | ModeClick (m : mode)
  | DifficultyChange (d : difficulty).

Definition handler (e : event) : M completion :=
  match e with
  | CellClick index => handleCellClick index
  | TimerFires r1 r2 => makeAIMove r1 r2
  | ResetGameClick => resetGame ;; mret Returned
  | PlayAgainClick => playAgain ;; mret Returned
  | ResetScoresClick => resetScores ;; mret Returned
  | ModeClick m => setGameMode m ;; mret Returned
  | DifficultyChange d => setDifficulty d ;; mret Returned
  end.

Definition scheduled (log : list effect) : nat :=
  length (List.filter (λ e, bool_decide (e = SetTimeoutMakeAIMove)) log).

(** One event: the handler runs until it returns or throws; an error
    that leaves a handler goes to the browser's console and the page
    carries on.  A timer event with no callback waiting does not
    happen. *)
Definition step (e : event) (w : world) : world * list effect :=
  match e, timers w with
  | TimerFires _ _, 0 => (w, [])
  | TimerFires _ _, S n =>
      let r := handler e (object w) in
      (World r.1.2 (n + scheduled r.2), r.2)
  | _, n =>
      let r := handler e (object w) in
      (World r.1.2 (n + scheduled r.2), r.2)
  end.

Fixpoint run (es : list event) (w : world) : world * list effect :=
  match es with
  | [] => (w, [])
  | e :: rest =>
      let r := step e w in
      let r' := run rest r.1 in
      (r'.1, r.2 ++ r'.2)
  end.

(** The page after loading. *)
Definition loaded (x o d : Z) : world := World (constructor x o d) 0.

(** The number of moves applied since the board was last cleared: every
    [makeMove] that is not cut short shows its mark once, every
    [resetGame] clears the cells. *)
Definition countMove (n : nat) (e : effect) : nat :=
  match e with
  | ClearCells => 0
  | UpdateCellDisplay _ _ => S n
  | _ => n
  end.

Definition movesSinceReset (log : list effect) : nat :=
  fold_left countMove log 0.

(** The value of [move] in [makeAIMove]. *)
Definition chosenMove (d : difficulty) (r1 r2 : rand) (b : array) : key :=
  match d with
  | Easy => getRandomMove r1 b
  | Medium => getMediumMove r1 r2 b
  | Hard => getHardMove r1 b
  end.

(** ** The vocabulary of the properties *)

(** The cells of the board are numbered 0 to 8. *)
Definition on_board (z : Z) : Prop := (0 ≤ z ≤ 8)%Z.

Definition in_line (P : Z → Prop) (l : Z * Z * Z) : Prop :=
  P l.1.1 ∧ P l.1.2 ∧ P l.2.

(** A board, cells 0 to 8, with at least one empty cell. *)
Definition hasEmptyCell (b : array) : Prop :=
  ∃ z, on_board z ∧ read b (Idx z) = Some Blank.

(** A line is won by [p] when its three cells are filled with [p]. *)
Definition wins (b : array) (p : player) (l : Z * Z * Z) : Prop :=
  read b (Idx l.1.1) = Some (Mark p)
  ∧ read b (Idx l.1.2) = Some (Mark p)
  ∧ read b (Idx l.2) = Some (Mark p).

Definition noWin (b : array) (lines : list (Z * Z * Z)) : Prop :=
  ∀ l p, l ∈ lines → ¬ wins b p l.

Definition rows : list (Z * Z * Z) := [(0, 1, 2); (3, 4, 5); (6, 7, 8)]%Z.
Definition columns : list (Z * Z * Z) := [(0, 3, 6); (1, 4, 7); (2, 5, 8)]%Z.
Definition diagonals : list (Z * Z * Z) := [(0, 4, 8); (2, 4, 6)]%Z.

(** The turn that goes with a number of moves: X on even, O on odd. *)
Definition turnAfter (n : nat) : player := if Nat.even n then X else O.

(** The tally with one more in the one counter of the outcome. *)
Definition credit (r : result) (t : tally) : tally :=
  match r with
  | Win X _ => Tally (scoreX t + 1) (scoreO t) (scoreDraw t)
  | Win O _ => Tally (scoreX t) (scoreO t + 1) (scoreDraw t)
  | Draw => Tally (scoreX t) (scoreO t) (scoreDraw t + 1)
  end.

(** The tally as [endGame] leaves it: the counter of the outcome has
    gone through [++]. *)
Definition counted (r : result) (t : tally) : tally :=
  match r with
  | Win X _ => Tally (increment (scoreX t)) (scoreO t) (scoreDraw t)
  | Win O _ => Tally (scoreX t) (increment (scoreO t)) (scoreDraw t)
  | Draw => Tally (scoreX t) (scoreO t) (increment (scoreDraw t))
  end.

(** *** The strategic priority order, as the specification words it *)

(** The three two-plus-gap patterns of a line, each written
    (cell, cell, gap), in the order gap = third, second, first. *)
Definition subPatterns (l : Z * Z * Z) : list (Z * Z * Z) :=
  let '(a, b, c) := l in [(a, b, c); (a, c, b); (b, c, a)].

(** Two cells hold [m] and the gap is empty. *)
Definition twoPlusGap (m : player) (b : array) (s : Z * Z * Z) : bool :=
  holds (Mark m) b s.1.1 && holds (Mark m) b s.1.2 && holds Blank b s.2.

(** The gap of the first pattern of [m], lines taken rows first, then
    columns, then diagonals. *)
Definition twoInLine (m : player) (b : array) : option Z :=
  snd <$> List.find (twoPlusGap m b)
            (flat_map subPatterns (rows ++ columns ++ diagonals)).

Definition firstEmpty (b : array) (cells : list Z) : option Z :=
  List.find (holds Blank b) cells.

(** The first rule that applies decides. *)
Fixpoint firstRule (rules : list (option Z)) : option Z :=
  match rules with
  | [] => None
  | Some z :: _ => Some z
  | None :: rest => firstRule rest
  end.

Definition priorityMove (b : array) : option Z :=
  firstRule
    [ twoInLine O b;                    (* 1. win *)
      twoInLine X b;                    (* 2. block *)
      firstEmpty b [4]%Z;               (* 3. centre *)
      firstEmpty b [0; 2; 6; 8]%Z;      (* 4. corners *)
      firstEmpty b [1; 3; 5; 7]%Z ].    (* 5. edges *)

(** The -1 of the source for "no move available". *)
Definition moveOf (o : option Z) : key :=
  match o with Some z => Idx z | None => Idx (-1) end.

(** The board has nine cells, [n] of them filled, and while the game is
    active the turn is the one that goes with [n] moves. *)
Definition consistent (g : game) (n : nat) : Prop :=
  length (board g) = 9
  ∧ filled (board g) = n
  ∧ (gameActive g = true → currentPlayer g = turnAfter n).

(** A click the handler turns down: no cell of that number, game over,
    or cell taken. *)
Definition turnedDown (index : key) (g : game) : Prop :=
  (∀ z, index = Idx z → ¬ on_board z)
  ∨ gameActive g = false
  ∨ ∃ p, read (board g) index = Some (Mark p).

(** ** Further vocabulary *)

(** The events that start a new game. *)
Definition startsNewGame (e : event) : bool :=
  match e with
  | ResetGameClick | PlayAgainClick | ModeClick _ => true
  | _ => false
  end.

(** The number of cells holding the mark of [p]. *)
Definition countMark (p : player) (b : array) : nat :=
  length (List.filter (λ s, bool_decide (s = Some (Mark p))) b).

(** The cell [k] lies on the line [l]. *)
Definition onLine (k : key) (l : Z * Z * Z) : Prop :=
  k = Idx l.1.1 ∨ k = Idx l.1.2 ∨ k = Idx l.2.

(** On the winning line [l] the mark of [p] is in two cells and the
    third cell, [z], is empty. *)
Definition canComplete (p : player) (b : array) (l : Z * Z * Z) (z : Z)
  : Prop :=
  l ∈ winningCombinations
  ∧ ∃ c1 c2, (c1, c2, z) ∈ subPatterns l
             ∧ read b (Idx c1) = Some (Mark p)
             ∧ read b (Idx c2) = Some (Mark p)
             ∧ read b (Idx z) = Some Blank.

(** While the game is active no line is won and a cell is empty. *)
Definition playable (g : game) : Prop :=
  gameActive g = true → checkGameEnd (board g) = None.

(** Two-player play: the mode is [Pvp] and no computer move is waiting. *)
Definition twoPlayers (w : world) : Prop :=
  gameMode (object w) = Pvp ∧ timers w = 0.

(** X has as many marks as O, or one more; the one more is there exactly
    when O is to move, or when X made the last move of a finished game. *)
Definition alternating (g : game) : Prop :=
  countMark X (board g)
  = countMark O (board g)
    + (if bool_decide (currentPlayer g = X) then
         if gameActive g then 0 else 1
       else
         if gameActive g then 1 else 0).

(** What an event can do to the object: nothing; change the scores or
    the difficulty only; start a new game; or make one move on an active
    game, the click into an empty cell with the mark of the turn, the
    timer into the cell chosen for O. *)
Inductive outcome (e : event) (g g' : game) : Prop :=
  | Untouched : g' = g → outcome e g g'
  | Settings :
      board g' = board g → currentPlayer g' = currentPlayer g →
      gameActive g' = gameActive g → gameMode g' = gameMode g →
      startsNewGame e = false → outcome e g g'
  | NewGame :
      startsNewGame e = true → board g' = emptyBoard →
      currentPlayer g' = X → gameActive g' = true →
      scores g' = scores g → outcome e g g'
  | Moved k p :
      gameActive g = true → startsNewGame e = false →
      g' = (makeMove k p g).1.2 →
      (e = CellClick k ∧ p = currentPlayer g
       ∧ read (board g) k = Some Blank)
      ∨ (∃ r1 r2, e = TimerFires r1 r2 ∧ p = O
           ∧ k = chosenMove (aiDifficulty g) r1 r2 (board g)
           ∧ k ≠ Idx (-1)) →
      outcome e g g'.

(** ** The storage of the browser *)

(** [localStorage]: missing or closed to the page (then every use of it
    throws and [typeof] finds it undefined or throws as well), or a map
    from keys to values. *)
Inductive localStorage :=
  | Unavailable
  | Storage (items : gmap string string).

Definition testKey : string := "__tic_tac_toe_test__".
Definition testValue : string := "safe_test_value".

Section storage.

(** Whether [setItem(key, value)] goes through on the given contents;
    when it does not (quota reached, storage read-only) it throws. *)
Context (accepts : gmap string string → string → string → bool).

(** A storage that never refuses a write. *)
Definition unlimited : Prop := ∀ m k v, accepts m k v = true.

(** [validateLocalStorage()]: the answer and the storage afterwards. *)
Definition validateLocalStorage (st : localStorage) : bool * localStorage :=
  match st with
  | Unavailable => (false, st)
  | Storage m =>
      if accepts m testKey testValue then
        let m1 := <[testKey := testValue]> m in
        if bool_decide (m1 !! testKey ≠ Some testValue)
        then (false, Storage m1)
        else (true, Storage (delete testKey m1))
      else (false, st)
  end.

(** [safeGetLocalStorage(key, defaultValue)] for a string [key]. *)
Definition safeGetLocalStorage (key defaultValue : string)
    (st : localStorage) : string * localStorage :=
  let v := validateLocalStorage st in
  if negb v.1 then (defaultValue, v.2)
  else if bool_decide (String.length key = 0) then (defaultValue, v.2)
  else
    match v.2 with
    | Storage m =>
        match m !! key with
        | Some value => (value, v.2)
        | None => (defaultValue, v.2)
        end
    | Unavailable => (defaultValue, v.2)
    end.

(** [safeSetLocalStorage(key, value)] for strings [key] and [value]. *)
Definition safeSetLocalStorage (key value : string)
    (st : localStorage) : bool * localStorage :=
  let v := validateLocalStorage st in
  if negb v.1 then (false, v.2)
  else if bool_decide (String.length key = 0) then (false, v.2)
  else
    match v.2 with
    | Storage m =>
        if accepts m key value
        then (true, Storage (<[key := value]> m))
        else (false, v.2)
    | Unavailable => (false, v.2)
    end.

(** ** The theme *)

(** The parts of the page the theme code touches: the storage, the
    [data-theme] attribute of the root element ([None]: not set), the
    text of the [.theme-icon] element and the label of the
    [#theme-toggle] button ([None]: no such element), and the messages
    handed to [showError], oldest first. *)
Record page := Page {
  storage : localStorage;
  dataTheme : option string;
  themeIcon : option string;
  themeToggle : option string;
  shownErrors : list string
}.

Definition showError (message : string) (pg : page) : page :=
  Page (storage pg) (dataTheme pg) (themeIcon pg) (themeToggle pg)
    (shownErrors pg ++ [message]).

Definition setAttribute (theme : string) (pg : page) : page :=
  Page (storage pg) (Some theme) (themeIcon pg) (themeToggle pg)
    (shownErrors pg).

Definition withStorage (st : localStorage) (pg : page) : page :=
  Page st (dataTheme pg) (themeIcon pg) (themeToggle pg) (shownErrors pg).

Definition validThemes : list string := ["light"; "dark"].

(** [setTheme(theme)] for a string [theme]. *)
Definition setTheme (theme : string) (pg : page) : page :=
  if bool_decide (String.length theme = 0)
     || negb (bool_decide (theme ∈ validThemes))
  then setAttribute "light"
         (showError "Failed to set theme. Using default theme." pg)
  else
    let pg1 := setAttribute theme pg in
    let v := validateLocalStorage (storage pg1) in
    if v.1
    then withStorage (safeSetLocalStorage "theme" theme v.2).2 pg1
    else withStorage v.2 pg1.

Definition sunIcon : string := "☀️".
Definition moonIcon : string := "🌙".

(** [updateThemeIcon(theme)] *)
Definition updateThemeIcon (theme : string) (pg : page) : page :=
  match themeIcon pg, themeToggle pg with
  | Some _, Some _ =>
      if bool_decide (theme = "dark")
      then Page (storage pg) (dataTheme pg) (Some sunIcon)
             (Some "Switch to light mode") (shownErrors pg)
      else Page (storage pg) (dataTheme pg) (Some moonIcon)
             (Some "Switch to dark mode") (shownErrors pg)
  | _, _ => showError "Failed to update theme icon." pg
  end.

(** [x || 'light'] for a string or [null]. *)
Definition orLight (x : option string) : string :=
  match x with
  | Some s => if bool_decide (String.length s = 0) then "light" else s
  | None => "light"
  end.

(** [toggleTheme()] *)
Definition toggleTheme (pg : page) : page :=
  let currentTheme := orLight (dataTheme pg) in
  let newTheme :=
    if bool_decide (currentTheme = "light") then "dark" else "light" in
  updateThemeIcon newTheme (setTheme newTheme pg).

(** [initializeTheme()] *)
Definition initializeTheme (pg : page) : page :=
  let v := validateLocalStorage (storage pg) in
  let pg1 :=
    if negb v.1
    then showError
           "Local storage not available. Theme preferences will not be saved."
           (withStorage v.2 pg)
    else withStorage v.2 pg in
  match storage pg1 with
  | Storage m =>
      let savedTheme := orLight (m !! "theme") in
      updateThemeIcon savedTheme (setTheme savedTheme pg1)
  | Unavailable =>
      updateThemeIcon "light"
        (setTheme "light"
           (showError
              "Failed to initialize theme system. Using default light theme."
              pg1))
  end.

(** The theme [initializeTheme] asks for: the stored one, if the storage
    can be read and holds one, else [light]. *)
Definition savedTheme (st : localStorage) : string :=
  match (validateLocalStorage st).2 with
  | Storage m => orLight (m !! "theme")
  | Unavailable => "light"
  end.

End storage.

(** Two storages for the examples: one that takes every write and one
    that takes none. *)
Definition roomy : gmap string string → string → string → bool :=
  λ _ _ _, true.
Definition fullUp : gmap string string → string → string → bool :=
  λ _ _ _, false.

(** ** Numbers in the storage *)

(** Strings are sequences of code units below 256, and, as everywhere in
    this file, numbers are mathematical integers: [parseInt] and
    [toString] below are those of JavaScript on the integers up to
    2^53 - 1 in magnitude, where every integer is a number and is
    printed with all its digits. *)
Definition safeInteger (z : Z) : Prop := (Z.abs z ≤ 9007199254740991)%Z.

(** White space that [parseInt] skips. *)
Definition isWhiteSpace (c : ascii) : bool :=
  bool_decide (N_of_ascii c ∈ [9; 10; 11; 12; 13; 32; 160]%N).

Fixpoint trimStart (s : string) : string :=
  match s with
  | String c rest => if isWhiteSpace c then trimStart rest else s
  | EmptyString => s
  end.

(** The value of [c] as a digit of the given radix, if it is one. *)
Definition digitOf (radix : Z) (c : ascii) : option Z :=
  let n := Z.of_N (N_of_ascii c) in
  let d :=
    if bool_decide (48 ≤ n ≤ 57)%Z then Some (n - 48)%Z
    else if bool_decide (97 ≤ n ≤ 122)%Z then Some (n - 87)%Z
    else if bool_decide (65 ≤ n ≤ 90)%Z then Some (n - 55)%Z
    else None in
  match d with
  | Some v => if bool_decide (v < radix)%Z then Some v else None
  | None => None
  end.

(** The value of the longest prefix of digits, read after [acc]. *)
Fixpoint parseDigits (radix : Z) (s : string) (acc : Z) : Z :=
  match s with
  | String c rest =>
      match digitOf radix c with
      | Some d => parseDigits radix rest (radix * acc + d)
      | None => acc
      end
  | EmptyString => acc
  end.

Definition startsWithDigit (radix : Z) (s : string) : bool :=
  match s with
  | String c _ => bool_decide (is_Some (digitOf radix c))
  | EmptyString => false
  end.

(** The sign in front, and the rest. *)
Definition splitSign (s : string) : Z * string :=
  match s with
  | String "-" rest => ((-1)%Z, rest)
  | String "+" rest => (1%Z, rest)
  | _ => (1%Z, s)
  end.

(** The radix: 16 after [0x] or [0X], which is dropped, else 10. *)
Definition splitRadix (s : string) : Z * string :=
  match s with
  | String "0" (String "x" rest) => (16%Z, rest)
  | String "0" (String "X" rest) => (16%Z, rest)
  | _ => (10%Z, s)
  end.

(** [parseInt(s)] with no radix given; [None] is [NaN]. *)
Definition parseInt (s : string) : option Z :=
  let signed := splitSign (trimStart s) in
  let digits := splitRadix signed.2 in
  if startsWithDigit digits.1 digits.2
  then Some (signed.1 * parseDigits digits.1 digits.2 0)%Z
  else None.

(** [x || 0] for a result of [parseInt] *)
Definition orZero (x : option Z) : Z :=
  match x with Some z => z | None => 0%Z end.

(** [n.toString()] for an integer [n] *)
Definition toString (n : Z) : string := pretty n.

(** ['scoreDraw'], and [`score${winner}`] for a player *)
Definition scoreKey (w : winner) : string :=
  match w with
  | Player X => "scoreX"
  | Player O => "scoreO"
  | NoPlayer => "scoreDraw"
  end.

Section persistence.

Context (accepts : gmap string string → string → string → bool).

(** [parseInt(this.safeGetLocalStorage(key, '0')) || 0] *)
Definition loadScore (key : string) (st : localStorage) : Z * localStorage :=
  let r := safeGetLocalStorage accepts key "0" st in
  (orZero (parseInt r.1), r.2).

(** The three counters as the constructor reads them, X first, then O,
    then the draws. *)
Definition loadScores (st : localStorage) : tally * localStorage :=
  let x := loadScore "scoreX" st in
  let o := loadScore "scoreO" x.2 in
  let d := loadScore "scoreDraw" o.2 in
  (Tally x.1 o.1 d.1, d.2).

(** What a logged call does to the storage: [updateScore] stores the
    counter through [safeSetLocalStorage], [resetScores] removes the
    three keys with [localStorage.removeItem], which throws at once when
    there is no storage; the other calls do not touch it. *)
Definition perform (e : effect) (st : localStorage) : localStorage :=
  match e with
  | SafeSetLocalStorage w value =>
      (safeSetLocalStorage accepts (scoreKey w) (toString value) st).2
  | RemoveStoredScores =>
      match st with
      | Storage m =>
          Storage (delete "scoreDraw" (delete "scoreO" (delete "scoreX" m)))
      | Unavailable => Unavailable
      end
  | _ => st
  end.

Definition performAll (log : list effect) (st : localStorage)
  : localStorage :=
  fold_left (λ s e, perform e s) log st.

End persistence.

(** The counter kept under [key], as the constructor would read it. *)
Definition stored (m : gmap string string) (key : string) : Z :=
  orZero (parseInt (default "0" (m !! key))).

(** Every counter and the number of events to come add up to a safe
    integer. *)
Definition staysSafe (t : tally) (n : nat) : Prop :=
  safeInteger (Z.abs (scoreX t) + Z.of_nat n)
  ∧ safeInteger (Z.abs (scoreO t) + Z.of_nat n)
  ∧ safeInteger (Z.abs (scoreDraw t) + Z.of_nat n).

(** Whose counter an outcome credits, and that counter in a tally. *)
Definition creditedTo (r : result) : winner :=
  match r with Win p _ => Player p | Draw => NoPlayer end.

Definition counter (w : winner) (t : tally) : Z :=
  match w with
  | Player X => scoreX t
  | Player O => scoreO t
  | NoPlayer => scoreDraw t
  end.

(** The storage is there and holds the three counters of the tally. *)
Definition mirrors (st : localStorage) (t : tally) : Prop :=
  ∃ m, st = Storage m
       ∧ stored m "scoreX" = scoreX t
       ∧ stored m "scoreO" = scoreO t
       ∧ stored m "scoreDraw" = scoreDraw t.

(** The value kept under a key, if the storage is there and has one. *)
Definition item (st : localStorage) (key : string) : option string :=
  match st with
  | Storage m => m !! key
  | Unavailable => None
  end.

(** A string of decimal digits. *)
Definition isDecimal (c : ascii) : bool :=
  bool_decide (48 ≤ Z.of_N (N_of_ascii c) ≤ 57)%Z.

Fixpoint allDecimal (s : string) : bool :=
  match s with
  | String c rest => isDecimal c && allDecimal rest
  | EmptyString => true
  end.

(** ** A session: the game and the theme on one page *)

(** What the user does: an event of the game, or a click on the theme
    button. *)
Inductive action :=
  | Play (e : event)
  | ThemeToggleClick.

(** The game with its timers, and the page with the storage. *)
Record session := Session { played : world; shown : page }.

Section sessions.

Context (accepts : gmap string string → string → string → bool).

(** [new TicTacToe()] on a page: the counters are read from the storage,
    then the theme is set up. *)
Definition startSession (pg : page) : session :=
  let sc := loadScores accepts (storage pg) in
  Session (loaded (scoreX sc.1) (scoreO sc.1) (scoreDraw sc.1))
    (initializeTheme accepts (withStorage sc.2 pg)).

(** One action: the handler runs, and the calls it makes to the storage
    are carried out. *)
Definition act (a : action) (s : session) : session :=
  match a with
  | Play e =>
      let r := step e (played s) in
      Session r.1
        (withStorage (performAll accepts r.2 (storage (shown s))) (shown s))
  | ThemeToggleClick => Session (played s) (toggleTheme accepts (shown s))
  end.

Definition acts (l : list action) (s : session) : session :=
  fold_left (λ s a, act a s) l s.

End sessions.

(** The theme that is put on the page for a requested one. *)
Definition lightUnlessValid (t : string) : string :=
  if bool_decide (t ∈ validThemes) then t else "light".

(** The number of game events among the actions. *)
Definition plays (l : list action) : nat :=
  length (List.filter (λ a, match a with Play _ => true | _ => false end) l).

(** The page shows the theme that the storage would bring back. *)
Definition themeSettled
    (accepts : gmap string string → string → string → bool) (pg : page)
  : Prop :=
  dataTheme pg = Some (lightUnlessValid (savedTheme accepts (storage pg))).

(** The storage is there. *)
Definition present (st : localStorage) : Prop := ∃ m, st = Storage m.

(** What holds all along a session on a page with a storage: the
    storage holds the tally, and the page shows the stored theme. *)
Definition sessionInStep
    (accepts : gmap string string → string → string → bool) (s : session)
  : Prop :=
  mirrors (storage (shown s)) (scores (object (played s)))
  ∧ themeSettled accepts (shown s).

(** ** The keyboard *)

(** What a validator does: return, or throw an error with a message. *)
Inductive checked := Passed | Thrown (message : string).

(** [validateCellIndex(index)] for an integer or [NaN] ([None]). *)
Definition validateCellIndex (index : option Z) : checked :=
  match index with
  | None => Thrown "Invalid cell index: must be a number"
  | Some z =>
      if bool_decide (z < 0)%Z || bool_decide (z > 8)%Z
      then Thrown "Invalid cell index: must be between 0 and 8"
      else Passed
  end.

(** What the [keydown] listener of the document does with a key: nothing,
    report an error through [showError], or look up the cell with the
    given [data-index] and click it unless it is disabled. *)
Inductive keyOutcome :=
  | Ignored
  | Reported (message : string)
  | Selected (index : Z).

(** The [keydown] listener; [e.key] is compared as a string. *)
Definition onKeyDown (key : string) : keyOutcome :=
  if String.leb "1" key && String.leb key "9" then
    let index := (λ n, n - 1)%Z <$> parseInt key in
    match validateCellIndex index with
    | Thrown _ => Reported "Invalid keyboard input."
    | Passed =>
        match index with
        | Some z => Selected z
        | None => Ignored
        end
    end
  else Ignored.

(** * Properties *)

(** ** Reading and writing the board *)

Arguments read : simpl never.
Arguments write : simpl never.
Arguments holds : simpl never.

Lemma array_index_of_nat n :
  (Z.of_nat n < 4294967295)%Z → array_index (Z.of_nat n) = true.
Proof. intros. apply bool_decide_eq_true. lia. Qed.

Lemma read_nat (b : array) n :
  length b ≤ 9 → read b (Idx (Z.of_nat n)) = mjoin (b !! n).
Proof.
  intros Hlen. unfold read. rewrite Nat2Z.id.
  destruct (array_index (Z.of_nat n)) eqn:Hi; [done|].
  apply bool_decide_eq_false in Hi.
  rewrite (lookup_ge_None_2 b n); [done|lia].
Qed.

Lemma read_Some (b : array) k v :
  read b k = Some v →
  ∃ n, k = Idx (Z.of_nat n) ∧ b !! n = Some (Some v)
       ∧ array_index (Z.of_nat n) = true.
Proof.
  destruct k as [z|]; [|done]. unfold read.
  destruct (array_index z) eqn:Hi; [|done].
  assert (0 ≤ z)%Z as Hz by (apply bool_decide_eq_true in Hi; lia).
  intros Hr. exists (Z.to_nat z). rewrite Z2Nat.id by done.
  split_and!; [done| |done].
  destruct (b !! Z.to_nat z) as [[c|]|]; simplify_eq/=; done.
Qed.

Lemma read_Some_lt (b : array) z v :
  read b (Idx z) = Some v → (0 ≤ z < Z.of_nat (length b))%Z.
Proof.
  intros (n & [= ->] & Hn & _)%read_Some.
  apply lookup_lt_Some in Hn. lia.
Qed.

Lemma read_elem_of (b : array) k v : read b k = Some v → Some v ∈ b.
Proof.
  intros (n & _ & Hn & _)%read_Some. by eapply list_elem_of_lookup_2.
Qed.

Lemma write_inside (b : array) n v c :
  b !! n = Some c → array_index (Z.of_nat n) = true →
  write b (Idx (Z.of_nat n)) v = <[n := Some v]> b.
Proof.
  intros Hn Hi. unfold write. rewrite Hi, Nat2Z.id.
  apply lookup_lt_Some in Hn. by rewrite decide_True.
Qed.

Lemma filled_app (b1 b2 : array) : filled (b1 ++ b2) = filled b1 + filled b2.
Proof. unfold filled. by rewrite List.filter_app, length_app. Qed.

Lemma filled_insert_blank (b : array) n p :
  b !! n = Some (Some Blank) →
  filled (<[n := Some (Mark p)]> b) = S (filled b).
Proof.
  intros Hn.
  rewrite <-(take_drop_middle b n (Some Blank)) at 2 by done.
  rewrite insert_take_drop by (by eapply lookup_lt_Some).
  rewrite !filled_app. change (Some (Mark p) :: ?l) with ([Some (Mark p)] ++ l).
  change (Some Blank :: ?l) with ([Some Blank] ++ l).
  rewrite !filled_app. unfold filled at 2 5. simpl. lia.
Qed.

(** Writing a mark into an empty cell fills exactly one more cell and
    keeps the length of the array. *)
Lemma write_blank (b : array) k p :
  read b k = Some Blank →
  filled (write b k (Mark p)) = S (filled b)
  ∧ length (write b k (Mark p)) = length b.
Proof.
  intros (n & -> & Hn & Hi)%read_Some.
  rewrite (write_inside _ _ _ _ Hn Hi), length_insert.
  split; [by apply filled_insert_blank|done].
Qed.

Lemma filled_emptyBoard : filled emptyBoard = 0.
Proof. reflexivity. Qed.

Lemma holds_true v (b : array) z :
  holds v b z = true ↔ read b (Idx z) = Some v.
Proof. unfold holds. apply bool_decide_eq_true. Qed.

Lemma holds_false v (b : array) z :
  holds v b z = false ↔ read b (Idx z) ≠ Some v.
Proof. unfold holds. apply bool_decide_eq_false. Qed.

Lemma every_nonblank_true (b : array) :
  every_nonblank b = true ↔ Some Blank ∉ b.
Proof.
  unfold every_nonblank. rewrite forallb_forall. split.
  - intros H Hin. apply list_elem_of_In, H in Hin. done.
  - intros H s Hs. destruct s as [[|p]|]; try done.
    by apply list_elem_of_In in Hs.
Qed.

Lemma every_nonblank_false (b : array) :
  every_nonblank b = false ↔ Some Blank ∈ b.
Proof.
  destruct (every_nonblank b) eqn:E.
  - apply every_nonblank_true in E. split; [done|]. by intros ?.
  - split; [intros _|done].
    destruct (decide (Some Blank ∈ b)) as [|Hn]; [done|].
    apply every_nonblank_true in Hn. congruence.
Qed.

(** ** Move selection picks empty cells *)

Lemma floorTimes_lt r n : 0 < n → floorTimes r n < n.
Proof.
  intros Hn. unfold floorTimes.
  apply Nat.Div0.div_lt_upper_bound. nia.
Qed.

Lemma elem_of_availableFrom i (b : array) z :
  z ∈ availableFrom i b ↔
  ∃ n, z = Z.of_nat (i + n) ∧ b !! n = Some (Some Blank).
Proof.
  revert i. induction b as [|s b IH]; intros i; simpl.
  - split; [by intros ?%elem_of_nil|by intros (n & _ & ?)].
  - assert (z ∈ availableFrom (S i) b ↔
            ∃ n, z = Z.of_nat (i + S n) ∧ b !! n = Some (Some Blank)) as IH'.
    { rewrite IH. by setoid_rewrite Nat.add_succ_r. }
    destruct s as [[|p]|]; rewrite ?elem_of_cons, IH'; split.
    + intros [->|(n & -> & Hn)]; [exists 0|exists (S n)]; split; try done.
      f_equal; lia.
    + intros ([|n] & -> & Hn); [left; f_equal; lia|right; eauto].
    + intros (n & -> & Hn). by exists (S n).
    + intros ([|n] & -> & Hn); [done|eauto].
    + intros (n & -> & Hn). by exists (S n).
    + intros ([|n] & -> & Hn); [done|eauto].
Qed.

Lemma elem_of_availableMoves (b : array) z :
  z ∈ availableMoves b ↔ ∃ n, z = Z.of_nat n ∧ b !! n = Some (Some Blank).
Proof. apply elem_of_availableFrom. Qed.

Lemma availableMoves_full (b : array) : Some Blank ∉ b → availableMoves b = [].
Proof.
  intros Hfull. destruct (availableMoves b) as [|z l] eqn:E; [done|].
  assert (z ∈ availableMoves b) as Hz by (rewrite E; left).
  apply elem_of_availableMoves in Hz as (n & _ & Hn).
  destruct Hfull. by eapply list_elem_of_lookup_2.
Qed.

(** On a board without an empty cell the random choice answers -1
    whatever number is drawn. *)
Lemma getRandomMove_full r (b : array) :
  Some Blank ∉ b → getRandomMove r b = Idx (-1).
Proof.
  intros Hfull. unfold getRandomMove. by rewrite availableMoves_full.
Qed.

(** Otherwise it answers the index of an empty cell. *)
Lemma getRandomMove_blank r (b : array) :
  length b ≤ 9 → Some Blank ∈ b →
  ∃ z, getRandomMove r b = Idx z ∧ read b (Idx z) = Some Blank.
Proof.
  intros Hlen (n & Hn)%list_elem_of_lookup_1. unfold getRandomMove.
  assert (Z.of_nat n ∈ availableMoves b) as Hin
    by (apply elem_of_availableMoves; eauto).
  assert (0 < length (availableMoves b)) as Hpos.
  { destruct (availableMoves b); [by apply elem_of_nil in Hin|simpl; lia]. }
  rewrite bool_decide_eq_true_2 by done.
  destruct (lookup_lt_is_Some_2 (availableMoves b)
              (floorTimes r (length (availableMoves b)))) as [z Hz].
  { by apply floorTimes_lt. }
  rewrite Hz. exists z. split; [done|].
  apply list_elem_of_lookup_2, elem_of_availableMoves in Hz as (m & -> & Hm).
  rewrite read_nat by done. by rewrite Hm.
Qed.


Lemma completeLine_Some (P : Z → Prop) m (b : array) combos z :
  Forall (in_line P) combos →
  completeLine m b combos = Some z →
  P z ∧ read b (Idx z) = Some Blank.
Proof.
  induction 1 as [|[[a b'] c] rest (Ha & Hb & Hc) _ IH]; simpl; [done|].
  destruct (_ && holds Blank b c) eqn:E1.
  { intros [= <-]. apply andb_true_iff in E1 as [_ ?%holds_true]. done. }
  destruct (_ && holds Blank b b') eqn:E2.
  { intros [= <-]. apply andb_true_iff in E2 as [_ ?%holds_true]. done. }
  destruct (_ && holds Blank b a) eqn:E3; [|done].
  intros [= <-]. apply andb_true_iff in E3 as [_ ?%holds_true]. done.
Qed.

Lemma firstBlank_Some (P : Z → Prop) (b : array) cells z :
  Forall P cells → firstBlank b cells = Some z →
  P z ∧ read b (Idx z) = Some Blank.
Proof.
  induction 1 as [|c rest Hc _ IH]; simpl; [done|].
  destruct (holds Blank b c) eqn:E; [|done].
  intros [= <-]. split; [done|by apply holds_true].
Qed.

Lemma firstBlank_None (b : array) cells :
  firstBlank b cells = None → ∀ z, z ∈ cells → read b (Idx z) ≠ Some Blank.
Proof.
  induction cells as [|c rest IH]; simpl; [by intros _ z ?%elem_of_nil|].
  destruct (holds Blank b c) eqn:E; [done|].
  intros Hrest z [->|Hz]%elem_of_cons; [by apply holds_false|by apply IH].
Qed.


Lemma winningCombinations_on_board :
  Forall (in_line on_board) winningCombinations.
Proof. repeat constructor; unfold on_board; simpl; lia. Qed.

Lemma corners_on_board : Forall on_board corners.
Proof. repeat constructor; unfold on_board; lia. Qed.

Lemma sides_on_board : Forall on_board sides.
Proof. repeat constructor; unfold on_board; lia. Qed.

Lemma on_board_cases z :
  on_board z → z = 4%Z ∨ z ∈ corners ∨ z ∈ sides.
Proof.
  unfold on_board, corners, sides. intros Hz.
  assert (z = 0 ∨ z = 1 ∨ z = 2 ∨ z = 3 ∨ z = 4 ∨ z = 5 ∨ z = 6 ∨ z = 7
          ∨ z = 8)%Z as Hc by lia.
  rewrite !elem_of_cons. destruct_or!; subst; auto 10.
Qed.

(** The five rules of [getStrategicMove] leave nothing over: when they
    all pass, no cell of the board is empty. *)
Lemma rules_exhausted (b : array) :
  holds Blank b 4 = false → firstBlank b corners = None →
  firstBlank b sides = None → ¬ hasEmptyCell b.
Proof.
  intros H4 Hc Hs (z & Hz & Hblank).
  destruct (on_board_cases z Hz) as [->|[Hin|Hin]].
  - by apply holds_false in H4.
  - by eapply firstBlank_None in Hc.
  - by eapply firstBlank_None in Hs.
Qed.

Lemma getStrategicMove_blank r (b : array) :
  hasEmptyCell b →
  ∃ z, getStrategicMove r b = Idx z ∧ on_board z
       ∧ read b (Idx z) = Some Blank.
Proof.
  intros Hempty. unfold getStrategicMove.
  destruct (completeLine O b winningCombinations) as [z|] eqn:HO.
  { exists z. split; [done|].
    by eapply completeLine_Some, HO; apply winningCombinations_on_board. }
  destruct (completeLine X b winningCombinations) as [z|] eqn:HX.
  { exists z. split; [done|].
    by eapply completeLine_Some, HX; apply winningCombinations_on_board. }
  destruct (holds Blank b 4) eqn:H4.
  { exists 4%Z. split_and!; [done|unfold on_board; lia|by apply holds_true]. }
  destruct (firstBlank b corners) as [z|] eqn:Hc.
  { exists z. split; [done|].
    by eapply firstBlank_Some, Hc; apply corners_on_board. }
  destruct (firstBlank b sides) as [z|] eqn:Hs.
  { exists z. split; [done|].
    by eapply firstBlank_Some, Hs; apply sides_on_board. }
  by destruct (rules_exhausted b).
Qed.

Lemma completeLine_full m (b : array) combos :
  Some Blank ∉ b → completeLine m b combos = None.
Proof.
  intros Hfull.
  assert (∀ z, holds Blank b z = false) as Hno.
  { intros z. apply holds_false. intros ?%read_elem_of. done. }
  induction combos as [|[[a b'] c] rest IH]; simpl; [done|].
  by rewrite !Hno, !andb_false_r.
Qed.

Lemma firstBlank_full (b : array) cells :
  Some Blank ∉ b → firstBlank b cells = None.
Proof.
  intros Hfull. induction cells as [|c rest IH]; simpl; [done|].
  rewrite (proj2 (holds_false Blank b c)); [done|].
  by intros ?%read_elem_of.
Qed.

Lemma getStrategicMove_full r (b : array) :
  Some Blank ∉ b → getStrategicMove r b = Idx (-1).
Proof.
  intros Hfull. unfold getStrategicMove.
  rewrite !completeLine_full, !firstBlank_full by done.
  rewrite (proj2 (holds_false Blank b 4)) by (by intros ?%read_elem_of).
  by apply getRandomMove_full.
Qed.

Lemma hasEmptyCell_elem_of (b : array) :
  length b = 9 → Some Blank ∈ b → hasEmptyCell b.
Proof.
  intros Hlen (n & Hn)%list_elem_of_lookup_1.
  exists (Z.of_nat n). apply lookup_lt_Some in Hn as Hlt.
  split; [unfold on_board; lia|].
  rewrite read_nat by lia. by rewrite Hn.
Qed.


Lemma getRandomMove_on_board r (b : array) :
  length b = 9 → hasEmptyCell b →
  ∃ z, getRandomMove r b = Idx z ∧ on_board z
       ∧ read b (Idx z) = Some Blank.
Proof.
  intros Hlen (z0 & _ & Hin%read_elem_of).
  destruct (getRandomMove_blank r b) as (z & Hm & Hz); [lia|done|].
  exists z. split_and!; [done| |done].
  apply read_Some_lt in Hz. unfold on_board. lia.
Qed.

(** On a nine-cell board with an empty cell every difficulty answers an
    empty cell. *)
Lemma chosenMove_blank d r1 r2 (b : array) :
  length b = 9 → hasEmptyCell b →
  ∃ z, chosenMove d r1 r2 b = Idx z ∧ on_board z
       ∧ read b (Idx z) = Some Blank.
Proof.
  intros Hlen He.
  destruct d; simpl; unfold getMediumMove, getHardMove;
    try destruct (below07 r1);
    auto using getRandomMove_on_board, getStrategicMove_blank.
Qed.

(** Without an empty cell every difficulty answers -1. *)
Lemma chosenMove_full d r1 r2 (b : array) :
  Some Blank ∉ b → chosenMove d r1 r2 b = Idx (-1).
Proof.
  intros Hfull. destruct d; simpl; unfold getMediumMove, getHardMove;
    try destruct (below07 r1);
    auto using getRandomMove_full, getStrategicMove_full.
Qed.

Lemma chosenMove_legal d r1 r2 (b : array) :
  length b = 9 →
  chosenMove d r1 r2 b = Idx (-1)
  ∨ ∃ z, chosenMove d r1 r2 b = Idx z ∧ read b (Idx z) = Some Blank.
Proof.
  intros Hlen. destruct (decide (Some Blank ∈ b)) as [Hin|Hfull].
  - right. pose proof (hasEmptyCell_elem_of b Hlen Hin) as He.
    destruct (chosenMove_blank d r1 r2 b Hlen He) as (z & ? & _ & ?).
    eauto.
  - left. by apply chosenMove_full.
Qed.

(** ** The strategic move against the priority order *)

Lemma completeLine_find m (b : array) combos :
  completeLine m b combos
  = snd <$> List.find (twoPlusGap m b) (flat_map subPatterns combos).
Proof.
  induction combos as [|[[a b'] c] rest IH]; [done|].
  cbn [completeLine flat_map subPatterns app List.find].
  unfold twoPlusGap at 1 2 3. cbn [fst snd].
  destruct (_ && holds Blank b c); [done|].
  destruct (_ && holds Blank b b'); [done|].
  destruct (_ && holds Blank b a); [done|].
  exact IH.
Qed.

Lemma firstBlank_find (b : array) cells :
  firstBlank b cells = firstEmpty b cells.
Proof.
  unfold firstEmpty. induction cells as [|c rest IH]; simpl; [done|].
  by destruct (holds Blank b c).
Qed.

Lemma winningCombinations_order :
  winningCombinations = rows ++ columns ++ diagonals.
Proof. reflexivity. Qed.

(** [getStrategicMove] is the priority order, with the random choice as
    its last resort. *)
Lemma getStrategicMove_priority r (b : array) :
  getStrategicMove r b
  = match priorityMove b with
    | Some z => Idx z
    | None => getRandomMove r b
    end.
Proof.
  unfold getStrategicMove, priorityMove, twoInLine.
  rewrite !completeLine_find, !firstBlank_find, winningCombinations_order.
  change (firstEmpty b [4%Z]) with (if holds Blank b 4 then Some 4%Z else None).
  unfold corners, sides.
  destruct (snd <$> List.find (twoPlusGap O b) _); [done|].
  destruct (snd <$> List.find (twoPlusGap X b) _); [done|].
  destruct (holds Blank b 4); [done|].
  destruct (firstEmpty b [0; 2; 6; 8]%Z); [done|].
  by destruct (firstEmpty b [1; 3; 5; 7]%Z).
Qed.

Lemma priorityMove_None (b : array) :
  priorityMove b = None → ¬ hasEmptyCell b.
Proof.
  unfold priorityMove.
  change (firstEmpty b [4%Z]) with (if holds Blank b 4 then Some 4%Z else None).
  destruct (twoInLine O b); [done|]. destruct (twoInLine X b); [done|].
  destruct (holds Blank b 4) eqn:H4; [done|].
  destruct (firstEmpty b [0; 2; 6; 8]%Z) eqn:Hc; [done|].
  destruct (firstEmpty b [1; 3; 5; 7]%Z) eqn:Hs; [done|].
  intros _. apply rules_exhausted; [done| |]; by rewrite firstBlank_find.
Qed.

(** ** The termination check *)

Lemma lineWinner_Some (b : array) l p :
  lineWinner b l = Some p ↔ wins b p l.
Proof.
  destruct l as [[a b'] c]. unfold lineWinner, wins. cbn [fst snd].
  destruct (read b (Idx a)) as [[|q]|] eqn:Ha;
    [by split; [|intros (? & _)].. | | by split; [|intros (? & _)]].
  destruct (bool_decide (Some (Mark q) = read b (Idx b'))) eqn:E1; simpl.
  - apply bool_decide_eq_true in E1.
    destruct (bool_decide (Some (Mark q) = read b (Idx c))) eqn:E2.
    + apply bool_decide_eq_true in E2. rewrite <-E1, <-E2.
      split; [by intros [= ->]|by intros ([= ->] & _)].
    + apply bool_decide_eq_false in E2.
      split; [done|]. intros ([= ->] & _ & Hc). by rewrite Hc in E2.
  - apply bool_decide_eq_false in E1.
    split; [done|]. intros ([= ->] & Hb & _). by rewrite Hb in E1.
Qed.

Lemma lineWinner_None (b : array) l :
  lineWinner b l = None ↔ ∀ p, ¬ wins b p l.
Proof.
  split.
  - intros Hn p Hw%lineWinner_Some. congruence.
  - intros Hn. destruct (lineWinner b l) as [p|] eqn:E; [|done].
    apply lineWinner_Some in E. by destruct (Hn p).
Qed.

Lemma firstWin_None (b : array) combos :
  firstWin b combos = None ↔ noWin b combos.
Proof.
  unfold noWin. induction combos as [|l rest IH]; simpl.
  - split; [by intros _ l p ?%elem_of_nil|done].
  - destruct (lineWinner b l) as [q|] eqn:E.
    + split; [done|]. intros Hn. apply lineWinner_Some in E.
      destruct (Hn l q); [left|done].
    + rewrite IH. split.
      * intros Hn l' p [->|Hin]%elem_of_cons; [|by apply Hn].
        by apply lineWinner_None.
      * intros Hn l' p Hin. apply Hn. by right.
Qed.

(** The loop reports the first winning line of the list, and its mark. *)
Lemma firstWin_Win (b : array) combos p l :
  firstWin b combos = Some (Win p l) ↔
  ∃ k, combos !! k = Some l ∧ wins b p l ∧ noWin b (take k combos).
Proof.
  induction combos as [|l0 rest IH]; simpl.
  - split; [done|]. by intros (k & ? & _).
  - destruct (lineWinner b l0) as [q|] eqn:E.
    + apply lineWinner_Some in E. split.
      * intros [= -> ->]. exists 0. split_and!; [done..|].
        by intros l' p' ?%elem_of_nil.
      * intros ([|k] & Hk & Hw & Hno).
        -- simplify_eq/=. apply lineWinner_Some in E, Hw. congruence.
        -- destruct (Hno l0 q); [simpl; left|done].
    + rewrite IH. split.
      * intros (k & Hk & Hw & Hno). exists (S k). split_and!; [done..|].
        intros l' p' [->|Hin]%elem_of_cons; [|by apply Hno].
        by apply lineWinner_None.
      * intros ([|k] & Hk & Hw & Hno).
        -- simplify_eq/=. apply lineWinner_Some in Hw. congruence.
        -- exists k. split_and!; [done..|].
           intros l' p' Hin. apply Hno. simpl. by right.
Qed.

Lemma firstWin_not_Draw (b : array) combos : firstWin b combos ≠ Some Draw.
Proof.
  induction combos as [|l rest IH]; simpl; [done|].
  by destruct (lineWinner b l).
Qed.

(** ** The handlers *)

Arguments nearestDouble : simpl never.
Arguments increment : simpl never.

Lemma nearestDouble_exact z :
  (Z.abs z < 9007199254740992)%Z → nearestDouble z = z.
Proof. intros Hz. unfold nearestDouble. by rewrite bool_decide_eq_true_2. Qed.

Lemma increment_safe n : safeInteger (Z.abs n + 1) → increment n = (n + 1)%Z.
Proof.
  unfold safeInteger, increment. intros Hn. apply nearestDouble_exact. lia.
Qed.

Lemma counted_safe r t : staysSafe t 1 → counted r t = credit r t.
Proof.
  intros (Hx & Ho & Hd). destruct r as [[] l|]; unfold counted, credit;
    by rewrite increment_safe.
Qed.

Lemma blank_onPage (b : array) k v :
  length b = 9 → read b k = Some v → cellOnPage k = true.
Proof.
  intros Hlen Hb. destruct k as [z|]; [|done].
  apply read_Some_lt in Hb. apply bool_decide_eq_true. lia.
Qed.

Lemma makeMove_thrown k p g :
  cellOnPage k = false →
  makeMove k p g = (Threw, set_board (write (board g) k (Mark p)) g, []).
Proof.
  intros Hk.
  unfold makeMove, unlessThrown, updateCellDisplay, mbind, M_bind, assign.
  by rewrite Hk.
Qed.

Lemma makeMove_returned k p g :
  cellOnPage k = true → (makeMove k p g).1.1 = Returned.
Proof.
  intros Hk.
  unfold makeMove, unlessThrown, updateCellDisplay, mbind, M_bind, assign.
  by rewrite Hk.
Qed.

Lemma makeMove_board k p g :
  board (makeMove k p g).1.2 = write (board g) k (Mark p).
Proof.
  destruct (cellOnPage k) eqn:Hk; [|by rewrite makeMove_thrown].
  unfold makeMove, unlessThrown, updateCellDisplay, mbind, M_bind, assign,
    call, this.
  rewrite Hk. simpl.
  destruct (checkGameEnd (write (board g) k (Mark p))) as [[[] c|]|];
    simpl; done.
Qed.

Lemma makeMove_facts k p g :
  cellOnPage k = true →
  let r := makeMove k p g in
  let b' := write (board g) k (Mark p) in
  board r.1.2 = b'
  ∧ gameMode r.1.2 = gameMode g
  ∧ aiDifficulty r.1.2 = aiDifficulty g
  ∧ (∀ n, fold_left countMove r.2 n = S n)
  ∧ scheduled r.2 = 0
  ∧ match checkGameEnd b' with
    | Some res =>
        gameActive r.1.2 = false
        ∧ currentPlayer r.1.2 = currentPlayer g
        ∧ scores r.1.2 = counted res (scores g)
    | None =>
        gameActive r.1.2 = gameActive g
        ∧ currentPlayer r.1.2 = other (currentPlayer g)
        ∧ scores r.1.2 = scores g
    end.
Proof.
  intros Hk.
  unfold makeMove, unlessThrown, updateCellDisplay, mbind, M_bind, assign,
    call, this.
  rewrite Hk. simpl.
  destruct (checkGameEnd (write (board g) k (Mark p))) as [[[] c|]|];
    simpl; done.
Qed.

Arguments makeMove : simpl never.

Lemma handleCellClick_rejected k g :
  gameActive g = false ∨ read (board g) k ≠ Some Blank →
  handleCellClick k g = (Returned, g, []).
Proof.
  intros H. unfold handleCellClick, mbind, M_bind, this. simpl.
  destruct H as [->|H]; [done|].
  by rewrite (bool_decide_eq_true_2 _ H), orb_true_r.
Qed.

Lemma handleCellClick_accepted k g :
  gameActive g = true → read (board g) k = Some Blank →
  let r := handleCellClick k g in
  let m := makeMove k (currentPlayer g) g in
  r.1.2 = m.1.2
  ∧ (r.2 = m.2 ∨ r.2 = m.2 ++ [SetTimeoutMakeAIMove]).
Proof.
  intros Ha Hb. unfold handleCellClick, unlessThrown, mbind, M_bind, this.
  cbn [fst snd]. rewrite Ha, bool_decide_eq_false_2 by (by intros ?).
  cbn [negb orb app].
  destruct (makeMove k (currentPlayer g) g) as [[[] g1] log]; cbn [fst snd];
    [|rewrite app_nil_r; auto].
  destruct (_ && _); simpl; rewrite ?app_nil_r; auto.
Qed.

Lemma makeAIMove_idle r1 r2 g :
  gameActive g = false ∨ chosenMove (aiDifficulty g) r1 r2 (board g) = Idx (-1) →
  makeAIMove r1 r2 g = (Returned, g, []).
Proof.
  intros H. unfold makeAIMove, mbind, M_bind, this. simpl.
  destruct (gameActive g); simpl; [|done].
  destruct H as [|H]; [done|]. fold (chosenMove (aiDifficulty g) r1 r2 (board g)).
  by rewrite H.
Qed.

Lemma makeAIMove_moves r1 r2 g k :
  gameActive g = true →
  chosenMove (aiDifficulty g) r1 r2 (board g) = k → k ≠ Idx (-1) →
  makeAIMove r1 r2 g = makeMove k O g.
Proof.
  intros Ha Hm Hk. unfold makeAIMove, mbind, M_bind, this. simpl.
  rewrite Ha. simpl. fold (chosenMove (aiDifficulty g) r1 r2 (board g)).
  rewrite Hm, bool_decide_eq_true_2 by done.
  by destruct (makeMove k O g) as [[? ?] ?].
Qed.

(** What the timer callback does, by cases. *)
Lemma makeAIMove_cases r1 r2 g :
  length (board g) = 9 →
  makeAIMove r1 r2 g = (Returned, g, [])
  ∨ gameActive g = true
    ∧ ∃ z, read (board g) (Idx z) = Some Blank
           ∧ makeAIMove r1 r2 g = makeMove (Idx z) O g.
Proof.
  intros Hlen. destruct (gameActive g) eqn:Ha.
  - destruct (chosenMove_legal (aiDifficulty g) r1 r2 (board g) Hlen)
      as [Hm|(z & Hm & Hz)].
    + left. apply makeAIMove_idle. by right.
    + right. split; [done|]. exists z. split; [done|].
      apply makeAIMove_moves; [done..|].
      intros [= ->]. apply read_Some_lt in Hz. lia.
  - left. apply makeAIMove_idle. by left.
Qed.

Lemma turnAfter_S n : turnAfter (S n) = other (turnAfter n).
Proof.
  unfold turnAfter. rewrite Nat.even_succ, <-Nat.negb_even.
  by destruct (Nat.even n).
Qed.

Lemma turnAfter_X n : turnAfter n = X ↔ Nat.Even n.
Proof.
  unfold turnAfter. rewrite <-Nat.even_spec. by destruct (Nat.even n).
Qed.

Lemma turnAfter_O n : turnAfter n = O ↔ Nat.Odd n.
Proof.
  unfold turnAfter. rewrite <-Nat.odd_spec, <-Nat.negb_even.
  by destruct (Nat.even n).
Qed.

(** A move into an empty cell of an active game keeps the count of
    filled cells and the turn in step. *)
Lemma makeMove_consistent k p g n :
  consistent g n → gameActive g = true → read (board g) k = Some Blank →
  consistent (makeMove k p g).1.2 (S n).
Proof.
  intros (Hlen & Hfill & Hturn) Ha Hb.
  destruct (makeMove_facts k p g (blank_onPage _ _ _ Hlen Hb))
    as (Hb' & _ & _ & _ & _ & Hend).
  destruct (write_blank (board g) k p Hb) as [Hf Hl].
  unfold consistent. rewrite Hb', Hf, Hl, Hfill. split_and!; [done..|].
  destruct (checkGameEnd _).
  - destruct Hend as (-> & _). done.
  - destruct Hend as (_ & -> & _). intros _.
    by rewrite Hturn, turnAfter_S.
Qed.

Lemma resetGame_facts g :
  let r := resetGame g in
  board r.1.2 = emptyBoard ∧ currentPlayer r.1.2 = X
  ∧ gameActive r.1.2 = true ∧ scores r.1.2 = scores g
  ∧ gameMode r.1.2 = gameMode g ∧ aiDifficulty r.1.2 = aiDifficulty g
  ∧ (∀ n, fold_left countMove r.2 n = 0) ∧ scheduled r.2 = 0.
Proof. by repeat split. Qed.

Lemma handler_consistent e g n :
  consistent g n →
  consistent (handler e g).1.2 (fold_left countMove (handler e g).2 n).
Proof.
  intros Hc. pose proof Hc as (Hlen & Hfill & Hturn).
  destruct e as [k|r1 r2| | | |m|d]; cbn [handler]; [| |done..].
  - destruct (gameActive g) eqn:Ha;
      [destruct (decide (read (board g) k = Some Blank)) as [Hb|Hb]|].
    + destruct (handleCellClick_accepted k g Ha Hb) as [-> Hlog].
      destruct (makeMove_facts k (currentPlayer g) g
                  (blank_onPage _ _ _ Hlen Hb))
        as (_ & _ & _ & Hcount & _).
      assert (fold_left countMove (handleCellClick k g).2 n = S n) as ->.
      { destruct Hlog as [->| ->]; rewrite ?fold_left_app, Hcount; done. }
      by apply makeMove_consistent.
    + rewrite handleCellClick_rejected by auto. done.
    + rewrite handleCellClick_rejected by auto. done.
  - destruct (makeAIMove_cases r1 r2 g Hlen) as [->|(Ha & z & Hz & ->)];
      [done|].
    destruct (makeMove_facts (Idx z) O g (blank_onPage _ _ _ Hlen Hz))
      as (_ & _ & _ & -> & _).
    by apply makeMove_consistent.
Qed.

Lemma step_consistent e w n :
  consistent (object w) n →
  consistent (object (step e w).1) (fold_left countMove (step e w).2 n).
Proof.
  intros Hc. unfold step.
  destruct e, (timers w); cbn [fst snd object]; try done;
    exact (handler_consistent _ _ _ Hc).
Qed.

Lemma run_consistent es w n :
  consistent (object w) n →
  consistent (object (run es w).1) (fold_left countMove (run es w).2 n).
Proof.
  revert w n. induction es as [|e es IH]; intros w n Hc; simpl; [done|].
  rewrite fold_left_app. by apply IH, step_consistent.
Qed.

Lemma constructor_consistent x o d : consistent (constructor x o d) 0.
Proof. by repeat split. Qed.

(** ** Scores *)

(** A move in an active game credits the tally exactly when it ends the
    game, and then with the outcome that [checkGameEnd] reports. *)
Lemma makeMove_scores k p g :
  gameActive g = true →
  let g' := (makeMove k p g).1.2 in
  if gameActive g && negb (gameActive g')
  then ∃ r, checkGameEnd (board g') = Some r
            ∧ scores g' = counted r (scores g)
  else scores g' = scores g.
Proof.
  intros Ha. destruct (cellOnPage k) eqn:Hk;
    [|rewrite makeMove_thrown by done; simpl; by rewrite Ha].
  destruct (makeMove_facts k p g Hk) as (Hb & _ & _ & _ & _ & Hend).
  cbv zeta in *. rewrite Hb, Ha.
  destruct (checkGameEnd (write (board g) k (Mark p))) as [r|].
  - destruct Hend as (-> & _ & ->). simpl. eauto.
  - destruct Hend as (-> & _ & ->). by rewrite Ha.
Qed.

Lemma unchanged_scores g :
  if gameActive g && negb (gameActive g)
  then ∃ r, checkGameEnd (board g) = Some r ∧ scores g = counted r (scores g)
  else scores g = scores g.
Proof. by destruct (gameActive g). Qed.

Lemma handler_scores e g :
  e ≠ ResetScoresClick →
  let g' := (handler e g).1.2 in
  if gameActive g && negb (gameActive g')
  then ∃ r, checkGameEnd (board g') = Some r
            ∧ scores g' = counted r (scores g)
  else scores g' = scores g.
Proof.
  intros He. destruct e as [k|r1 r2| | | |m|d]; cbn [handler]; cbv zeta.
  3-4, 6: by simpl; rewrite andb_false_r.
  3: done.
  3: simpl; apply unchanged_scores.
  - destruct (gameActive g) eqn:Ha;
      [destruct (decide (read (board g) k = Some Blank)) as [Hb|Hb]|].
    + destruct (handleCellClick_accepted k g Ha Hb) as [-> _].
      rewrite <-Ha. by apply makeMove_scores.
    + rewrite handleCellClick_rejected by auto. simpl. by rewrite ?Ha.
    + rewrite handleCellClick_rejected by auto. simpl. by rewrite ?Ha.
  - destruct (gameActive g) eqn:Ha.
    + destruct (decide (chosenMove (aiDifficulty g) r1 r2 (board g)
                        = Idx (-1))) as [Hm|Hm].
      * rewrite makeAIMove_idle by auto. simpl. by rewrite ?Ha.
      * rewrite (makeAIMove_moves r1 r2 g _ Ha eq_refl Hm).
        rewrite <-Ha. by apply makeMove_scores.
    + rewrite makeAIMove_idle by auto. simpl. by rewrite ?Ha.
Qed.

Lemma step_scores e w :
  e ≠ ResetScoresClick →
  let g := object w in
  let g' := object (step e w).1 in
  if gameActive g && negb (gameActive g')
  then ∃ r, checkGameEnd (board g') = Some r
            ∧ scores g' = counted r (scores g)
  else scores g' = scores g.
Proof.
  intros He. pose proof (handler_scores e (object w) He) as H.
  unfold step. destruct e, (timers w); cbn [fst snd object]; try done.
  apply unchanged_scores.
Qed.

(** ** The examples of the specification *)

(** X holds cells 0 and 1, O holds 4 and 8, X to move: the move to
    cell 2 wins the top row for X and is counted once. *)
Example top_row_win :
  let g := Game [Some (Mark X); Some (Mark X); Some Blank;
                 Some Blank; Some (Mark O); Some Blank;
                 Some Blank; Some Blank; Some (Mark O)]
             X true Pvp Medium (Tally 0 0 0) in
  let g' := (handleCellClick (Idx 2) g).1.2 in
  checkGameEnd (board g') = Some (Win X (0, 1, 2)%Z)
  ∧ gameActive g' = false
  ∧ scores g' = Tally 1 0 0.
Proof. by repeat split. Qed.

Example full_board_without_line_is_draw :
  checkGameEnd [Some (Mark X); Some (Mark O); Some (Mark X);
                Some (Mark X); Some (Mark O); Some (Mark O);
                Some (Mark O); Some (Mark X); Some (Mark X)]
  = Some Draw.
Proof. reflexivity. Qed.

Example hard_blocks_top_row r :
  getHardMove r [Some (Mark X); Some (Mark X); Some Blank;
                 Some Blank; Some Blank; Some Blank;
                 Some Blank; Some Blank; Some Blank]
  = Idx 2.
Proof. reflexivity. Qed.

Example hard_completes_top_row r :
  getHardMove r [Some (Mark O); Some (Mark O); Some Blank;
                 Some Blank; Some Blank; Some Blank;
                 Some Blank; Some Blank; Some Blank]
  = Idx 2.
Proof. reflexivity. Qed.

(** Winning comes before blocking: O completes the middle row although
    X threatens the top row. *)
Example hard_prefers_win_to_block r :
  getHardMove r [Some (Mark X); Some (Mark X); Some Blank;
                 Some (Mark O); Some (Mark O); Some Blank;
                 Some Blank; Some Blank; Some (Mark X)]
  = Idx 5.
Proof. reflexivity. Qed.

(** A write past the end of the array grows it and leaves holes. *)
Example write_past_the_end :
  write emptyBoard (Idx 11) (Mark X)
  = emptyBoard ++ [None; None; Some (Mark X)].
Proof. reflexivity. Qed.

(** * The claims *)

(** C1 (as amended).  On a nine-cell board, a click with a subscript
    that is no cell number from 0 to 8, a click while the game is over,
    and a click on a taken cell all return at once and in the ordinary
    way: nothing is thrown, [makeMove] is not called, nothing is sent to
    the page, and board, turn, status and scores are as before.  A click
    that is let through writes the mark of the current turn. *)
Theorem click_turned_down_or_current_mark k g :
  length (board g) = 9 →
  (turnedDown k g → handleCellClick k g = (Returned, g, []))
  ∧ (gameActive g = true → read (board g) k = Some Blank →
     board (handleCellClick k g).1.2
     = write (board g) k (Mark (currentPlayer g))).
Proof.
  intros Hlen. split.
  - intros [Hout|[Hover|(p & Hp)]]; apply handleCellClick_rejected.
    + right. intros Hb. destruct k as [z|]; [|done].
      apply (Hout z eq_refl). apply read_Some_lt in Hb.
      unfold on_board. lia.
    + by left.
    + right. congruence.
  - intros Ha Hb. destruct (handleCellClick_accepted k g Ha Hb) as [-> _].
    apply makeMove_board.
Qed.

Lemma click_turned_down_or_current_mark_witness :
  handleCellClick (Idx 9) (constructor 0 0 0)
  = (Returned, constructor 0 0 0, [])
  ∧ board (handleCellClick (Idx 4) (constructor 0 0 0)).1.2
    = write emptyBoard (Idx 4) (Mark X).
Proof.
  destruct (click_turned_down_or_current_mark (Idx 9) (constructor 0 0 0)
              eq_refl) as [H9 _].
  destruct (click_turned_down_or_current_mark (Idx 4) (constructor 0 0 0)
              eq_refl) as [_ H4].
  split.
  - apply H9. left. intros z [= <-]. unfold on_board. lia.
  - apply H4; reflexivity.
Defined.

(** C1, as first stated, fails: it asks that a click that is turned down
    fail with an error.  On a new game the click on a cell number 9, on
    the game with an X in cell 4 the click on cell 4, and on a finished
    game the click on cell 0 are all turned down, and each ends as the
    accepted click on cell 4 of the new game ends: the handler returns,
    no error is thrown. *)
Lemma turned_down_click_returns :
  let g := constructor 0 0 0 in
  let g1 := (handleCellClick (Idx 4) g).1.2 in
  let g2 := set_gameActive false g in
  (handleCellClick (Idx 4) g).1.1 = Returned
  ∧ read (board g) (Idx 9) = None
  ∧ (handleCellClick (Idx 9) g).1.1 = Returned
  ∧ (handleCellClick (Idx 9) g).1.1 ≠ Threw
  ∧ read (board g1) (Idx 4) = Some (Mark X)
  ∧ (handleCellClick (Idx 4) g1).1.1 = Returned
  ∧ (handleCellClick (Idx 4) g1).1.1 ≠ Threw
  ∧ gameActive g2 = false
  ∧ (handleCellClick (Idx 0) g2).1.1 = Returned
  ∧ (handleCellClick (Idx 0) g2).1.1 ≠ Threw.
Proof. vm_compute. repeat split; discriminate. Qed.

(** The timer callback does not look at the turn.  In computer mode
    with the difficulty set to hard, after a click on cell 0 and a
    second click on cell 1 before the timer fires, it is X's turn and
    one callback is waiting; the callback then writes an O into
    cell 4. *)
Lemma out_of_turn_mark_is_applied :
  let w := (run [ModeClick Ai; DifficultyChange Hard;
                 CellClick (Idx 0); CellClick (Idx 1)] (loaded 0 0 0)).1 in
  let g := object w in
  let r := makeAIMove (Rand 0 0) (Rand 0 0) g in
  timers w = 1 ∧ gameActive g = true ∧ currentPlayer g = X
  ∧ read (board g) (Idx 4) = Some Blank
  ∧ r = makeMove (Idx 4) O g
  ∧ read (board r.1.2) (Idx 4) = Some (Mark O)
  ∧ board r.1.2 ≠ board g.
Proof. vm_compute. repeat split. discriminate. Qed.

(** C2.  On every board with an empty cell among the cells 0 to 8, the
    move of the hard difficulty is the move of the priority order:
    complete O's two-in-a-line (lines in their fixed order, in each line
    gap third, then second, then first), else block X's in the same
    order, else the centre, else the first empty corner of 0, 2, 6, 8,
    else the first empty edge of 1, 3, 5, 7. *)
Theorem hard_move_follows_priority_order r (b : array) :
  hasEmptyCell b →
  ∃ z, priorityMove b = Some z ∧ getHardMove r b = Idx z.
Proof.
  intros He. unfold getHardMove. rewrite getStrategicMove_priority.
  destruct (priorityMove b) as [z|] eqn:Hp; [by exists z|].
  by apply priorityMove_None in Hp.
Qed.

Lemma hard_move_follows_priority_order_witness :
  let b := [Some (Mark X); Some (Mark X); Some Blank;
            Some Blank; Some Blank; Some Blank;
            Some Blank; Some Blank; Some Blank] in
  hasEmptyCell b
  ∧ ∃ z, priorityMove b = Some z ∧ getHardMove (Rand 0 0) b = Idx z.
Proof.
  assert (hasEmptyCell [Some (Mark X); Some (Mark X); Some Blank;
            Some Blank; Some Blank; Some Blank;
            Some Blank; Some Blank; Some Blank]) as He.
  { exists 2%Z. split; [unfold on_board; lia|reflexivity]. }
  split; [exact He|].
  exact (hard_move_follows_priority_order (Rand 0 0) _ He).
Defined.

(** C3.  [checkGameEnd] goes through the eight lines, rows first, then
    columns, then diagonals; it reports a win with the mark and the
    first line of that order whose three cells hold the same mark; when
    no line is won it reports a draw if no cell is empty, and nothing
    otherwise. *)
Theorem checkGameEnd_first_line_then_draw (b : array) :
  winningCombinations = rows ++ columns ++ diagonals
  ∧ (∀ p l, checkGameEnd b = Some (Win p l) ↔
       ∃ k, winningCombinations !! k = Some l ∧ wins b p l
            ∧ noWin b (take k winningCombinations))
  ∧ (checkGameEnd b = Some Draw ↔
       noWin b winningCombinations ∧ Some Blank ∉ b)
  ∧ (checkGameEnd b = None ↔
       noWin b winningCombinations ∧ Some Blank ∈ b).
Proof.
  split; [reflexivity|]. unfold checkGameEnd.
  pose proof (firstWin_Win b winningCombinations) as HW.
  pose proof (firstWin_None b winningCombinations) as HN.
  pose proof (firstWin_not_Draw b winningCombinations) as HD.
  pose proof (every_nonblank_true b) as HT.
  pose proof (every_nonblank_false b) as HF.
  destruct (firstWin b winningCombinations) as [r|].
  - assert (¬ noWin b winningCombinations) as Hno.
    { intros ?%HN. done. }
    split_and!.
    + intros p l. by rewrite <-HW.
    + split; [congruence|by intros [? _]].
    + split; [done|by intros [? _]].
  - assert (noWin b winningCombinations) as Hno by (by apply HN).
    split_and!.
    + intros p l. rewrite <-HW. by destruct (every_nonblank b).
    + destruct (every_nonblank b).
      * split; [intros _; split; [done|by apply HT]|done].
      * split; [done|]. intros [_ Hfull]. by apply HT in Hfull.
    + destruct (every_nonblank b).
      * split; [done|]. intros [_ Hin]. by apply HF in Hin.
      * split; [intros _; split; [done|by apply HF]|done].
Qed.

(** C4 fails in the code.  In computer mode a click on cell 4 schedules
    the computer's move and the game is reset before the timer fires:
    the game is fresh, no cell filled, no move applied, X to move.  The
    callback then fires, and the first move of the fresh game is an O:
    one move applied, one O and no X on the board.  The turn, X before
    the move, is O after it, so the mark that has just moved is to move
    again. *)
Theorem fresh_game_opened_by_O :
  let r := run [ModeClick Ai; CellClick (Idx 4); ResetGameClick]
             (loaded 0 0 0) in
  let r' := step (TimerFires (Rand 0 0) (Rand 0 0)) r.1 in
  let g := object r.1 in
  let g' := object r'.1 in
  (filled (board g) = 0 ∧ movesSinceReset r.2 = 0
   ∧ gameActive g = true ∧ currentPlayer g = X)
  ∧ r'.2 = [UpdateCellDisplay (Idx 4) O; UpdateCurrentPlayerDisplay]
  ∧ movesSinceReset (r.2 ++ r'.2) = 1
  ∧ countMark O (board g') = 1 ∧ countMark X (board g') = 0
  ∧ gameActive g' = true ∧ currentPlayer g' = O.
Proof. vm_compute. repeat split. Qed.

(** C5 (as amended).  Whatever the event, except a reset of the scores,
    and whatever the state: if the event takes the game from active to
    over, the single counter of the outcome that [checkGameEnd] reports
    on the final board goes through [++] once and the other two counters
    are as before; that counter gains exactly one whenever the three
    counters are safe integers with room for one more (magnitude at
    most 2^53 - 2).  In every other case (the game stays active, is
    already over, or is started again) the three counters are as
    before. *)
Theorem score_counted_once_at_game_end e w :
  e ≠ ResetScoresClick →
  let g := object w in
  let g' := object (step e w).1 in
  if gameActive g && negb (gameActive g')
  then ∃ r, checkGameEnd (board g') = Some r
            ∧ scores g' = counted r (scores g)
            ∧ (staysSafe (scores g) 1 → scores g' = credit r (scores g))
  else scores g' = scores g.
Proof.
  intros He. pose proof (step_scores e w He) as H. cbv zeta in *.
  destruct (gameActive (object w) && negb (gameActive (object (step e w).1)));
    [|done].
  destruct H as (r & Hr & ->). exists r. split_and!; [done..|].
  intros Hsafe. by rewrite counted_safe.
Qed.

Lemma score_counted_once_at_game_end_witness :
  let g := Game [Some (Mark X); Some (Mark X); Some Blank;
                 Some Blank; Some (Mark O); Some Blank;
                 Some Blank; Some Blank; Some (Mark O)]
             X true Pvp Medium (Tally 3 1 2) in
  let g' := object (step (CellClick (Idx 2)) (World g 0)).1 in
  ∃ r, checkGameEnd (board g') = Some r
       ∧ scores g' = counted r (scores g)
       ∧ scores g' = credit r (scores g).
Proof.
  destruct (score_counted_once_at_game_end (CellClick (Idx 2))
           (World (Game [Some (Mark X); Some (Mark X); Some Blank;
                         Some Blank; Some (Mark O); Some Blank;
                         Some Blank; Some Blank; Some (Mark O)]
                     X true Pvp Medium (Tally 3 1 2)) 0))
    as (r & Hr & Hc & Hs); [discriminate|].
  exists r. split_and!; [exact Hr|exact Hc|].
  apply Hs. unfold staysSafe, safeInteger. vm_compute. intuition discriminate.
Defined.

(** C5, as first stated, fails: the counters are doubles.  The page is
    loaded with 2^53 stored as the number of wins of X; two players
    then play X 0, O 4, X 1, O 8 and X 2.  The last click ends the game
    with the top row won by X, and the counter of X is what it was: the
    [++] of [updateScore] rounds 2^53 + 1 back to 2^53. *)
Lemma counter_at_2_53_stays :
  let w := (run [CellClick (Idx 0); CellClick (Idx 4); CellClick (Idx 1);
                 CellClick (Idx 8)] (loaded 9007199254740992 0 0)).1 in
  let g := object w in
  let g' := object (step (CellClick (Idx 2)) w).1 in
  gameActive g = true ∧ gameActive g' = false
  ∧ checkGameEnd (board g') = Some (Win X (0, 1, 2)%Z)
  ∧ scores g' = scores g
  ∧ scores g' ≠ credit (Win X (0, 1, 2)%Z) (scores g).
Proof. vm_compute. repeat split. discriminate. Qed.

(** C6 fails in the code.  In computer mode a click on cell 4 schedules
    the computer's move; the game is reset before the timer fires; the
    board is then empty, it is X's turn and the callback is still
    waiting.  When it fires it puts an O on the fresh board and leaves
    the turn with O. *)
Theorem deferred_move_lands_on_reset_board :
  let w := (run [ModeClick Ai; CellClick (Idx 4); ResetGameClick]
              (loaded 0 0 0)).1 in
  let w' := (step (TimerFires (Rand 0 0) (Rand 0 0)) w).1 in
  board (object w) = emptyBoard
  ∧ gameActive (object w) = true
  ∧ currentPlayer (object w) = X
  ∧ timers w = 1
  ∧ board (object w') = <[4 := Some (Mark O)]> emptyBoard
  ∧ currentPlayer (object w') = O.
Proof. vm_compute. repeat split. Qed.

(** C7.  From every state, finished games included, [resetGame] (and
    with it "play again") leaves nine empty cells, X to move and an
    active game, and the three counters of the tally as they were. *)
Theorem resetGame_restores_start_keeps_scores g :
  let g' := (resetGame g).1.2 in
  board g' = replicate 9 (Some Blank)
  ∧ currentPlayer g' = X
  ∧ gameActive g' = true
  ∧ scores g' = scores g
  ∧ playAgain g = resetGame g.
Proof. by repeat split. Qed.

(** C8.  On a board without an empty cell the move computed at every
    difficulty, whatever the random numbers, is -1, and [makeAIMove]
    then returns without calling [makeMove]: the game is as before and
    nothing is sent to the page. *)
Theorem full_board_gives_no_move r1 r2 g :
  Some Blank ∉ board g →
  (∀ d, chosenMove d r1 r2 (board g) = Idx (-1))
  ∧ makeAIMove r1 r2 g = (Returned, g, []).
Proof.
  intros Hfull. split.
  - intros d. by apply chosenMove_full.
  - apply makeAIMove_idle. right. by apply chosenMove_full.
Qed.

Lemma full_board_gives_no_move_witness :
  let g := Game [Some (Mark X); Some (Mark O); Some (Mark X);
                 Some (Mark X); Some (Mark O); Some (Mark O);
                 Some (Mark O); Some (Mark X); Some (Mark X)]
             O true Ai Easy (Tally 0 0 0) in
  (∀ d, chosenMove d (Rand 1 2) (Rand 5 0) (board g) = Idx (-1))
  ∧ makeAIMove (Rand 1 2) (Rand 5 0) g = (Returned, g, []).
Proof.
  apply (full_board_gives_no_move (Rand 1 2) (Rand 5 0)
           (Game [Some (Mark X); Some (Mark O); Some (Mark X);
                  Some (Mark X); Some (Mark O); Some (Mark O);
                  Some (Mark O); Some (Mark X); Some (Mark X)]
              O true Ai Easy (Tally 0 0 0))).
  simpl. rewrite !elem_of_cons, elem_of_nil.
  intros H. repeat destruct H as [H|H]; discriminate || exact H.
Defined.

(** C9.  On a nine-cell board the move of the hard difficulty does not
    depend on the random number: two evaluations agree, and the move is
    the one of the priority order, or -1 when no rule applies. *)
Theorem hard_move_is_deterministic r r' (b : array) :
  length b = 9 →
  getHardMove r b = getHardMove r' b
  ∧ getHardMove r b = moveOf (priorityMove b).
Proof.
  intros Hlen.
  assert (∀ s, getHardMove s b = moveOf (priorityMove b)) as H.
  { intros s. unfold getHardMove. rewrite getStrategicMove_priority.
    destruct (priorityMove b) eqn:Hp; [done|]. simpl.
    apply getRandomMove_full. intros Hin.
    by apply priorityMove_None in Hp; apply Hp, hasEmptyCell_elem_of. }
  by rewrite !H.
Qed.

Lemma hard_move_is_deterministic_witness :
  let b := [Some (Mark X); Some Blank; Some Blank;
            Some Blank; Some (Mark O); Some Blank;
            Some Blank; Some Blank; Some (Mark X)] in
  getHardMove (Rand 0 0) b = getHardMove (Rand 7 1) b
  ∧ getHardMove (Rand 0 0) b = moveOf (priorityMove b).
Proof.
  apply (hard_move_is_deterministic (Rand 0 0) (Rand 7 1)
           [Some (Mark X); Some Blank; Some Blank;
            Some Blank; Some (Mark O); Some Blank;
            Some Blank; Some Blank; Some (Mark X)]).
  reflexivity.
Defined.

(** C10.  On every board with an empty cell among the cells 0 to 8,
    [getStrategicMove] answers the number, from 0 to 8, of a cell that
    is empty; on a nine-cell board the same holds for the move computed
    at each difficulty, so the computer never writes over a filled
    cell. *)
Theorem strategic_move_is_an_empty_cell r (b : array) :
  hasEmptyCell b →
  (∃ z, getStrategicMove r b = Idx z ∧ on_board z
        ∧ read b (Idx z) = Some Blank)
  ∧ (length b = 9 → ∀ d r2,
       ∃ z, chosenMove d r r2 b = Idx z ∧ on_board z
            ∧ read b (Idx z) = Some Blank).
Proof.
  intros He. split; [by apply getStrategicMove_blank|].
  intros Hlen d r2. by apply chosenMove_blank.
Qed.

Lemma strategic_move_is_an_empty_cell_witness :
  let b := [Some (Mark X); Some (Mark O); Some (Mark X);
            Some (Mark X); Some (Mark O); Some (Mark O);
            Some (Mark O); Some (Mark X); Some Blank] in
  ∃ z, getStrategicMove (Rand 0 0) b = Idx z ∧ on_board z
       ∧ read b (Idx z) = Some Blank.
Proof.
  apply (strategic_move_is_an_empty_cell (Rand 0 0)
           [Some (Mark X); Some (Mark O); Some (Mark X);
            Some (Mark X); Some (Mark O); Some (Mark O);
            Some (Mark O); Some (Mark X); Some Blank]).
  exists 8%Z. split; [unfold on_board; lia|reflexivity].
Defined.

(** * Further properties of the game *)

(** ** Writes and counts *)

Lemma read_write_same (b : array) k c v :
  read b k = Some c → read (write b k v) k = Some v.
Proof.
  intros (n & -> & Hn & Hi)%read_Some.
  rewrite (write_inside _ _ _ _ Hn Hi). unfold read. rewrite Hi, Nat2Z.id.
  rewrite list_lookup_insert_eq by (by eapply lookup_lt_Some). done.
Qed.

Lemma read_write_other (b : array) k c v z :
  read b k = Some c → k ≠ Idx z →
  read (write b k v) (Idx z) = read b (Idx z).
Proof.
  intros (n & -> & Hn & Hi)%read_Some Hne.
  rewrite (write_inside _ _ _ _ Hn Hi). unfold read.
  destruct (array_index z) eqn:Hz; [|done].
  rewrite list_lookup_insert_ne; [done|].
  intros ->. apply Hne. f_equal.
  apply bool_decide_eq_true in Hz. lia.
Qed.

Lemma countMark_app p (b1 b2 : array) :
  countMark p (b1 ++ b2) = countMark p b1 + countMark p b2.
Proof. unfold countMark. by rewrite List.filter_app, length_app. Qed.

Lemma countMark_write p q (b : array) k :
  read b k = Some Blank →
  countMark q (write b k (Mark p))
  = countMark q b + (if bool_decide (q = p) then 1 else 0).
Proof.
  intros (n & -> & Hn & Hi)%read_Some.
  rewrite (write_inside _ _ _ _ Hn Hi).
  rewrite <-(take_drop_middle b n (Some Blank)) at 2 by done.
  rewrite insert_take_drop by (by eapply lookup_lt_Some).
  change (Some (Mark p) :: ?l) with ([Some (Mark p)] ++ l).
  change (Some Blank :: ?l) with ([Some Blank] ++ l).
  rewrite !countMark_app. unfold countMark at 2 5. simpl.
  destruct p, q; simpl; lia.
Qed.

Lemma filled_le_length (b : array) : filled b ≤ length b.
Proof. unfold filled. apply List.filter_length_le. Qed.

Lemma filled_blank_lt (b : array) : Some Blank ∈ b → filled b < length b.
Proof.
  intros (n & Hn)%list_elem_of_lookup_1.
  rewrite <-(take_drop_middle b n (Some Blank)) by done.
  change (Some Blank :: ?l) with ([Some Blank] ++ l).
  rewrite !filled_app, !length_app.
  pose proof (filled_le_length (take n b)).
  pose proof (filled_le_length (drop (S n) b)).
  unfold filled at 2. simpl. lia.
Qed.

(** ** Shapes of the handlers *)

Lemma makeAIMove_shape r1 r2 g :
  makeAIMove r1 r2 g = (Returned, g, [])
  ∨ gameActive g = true ∧ ∃ k, makeAIMove r1 r2 g = makeMove k O g.
Proof.
  destruct (gameActive g) eqn:Ha; [|left; apply makeAIMove_idle; by left].
  destruct (decide (chosenMove (aiDifficulty g) r1 r2 (board g) = Idx (-1)))
    as [Hm|Hm].
  - left. apply makeAIMove_idle. by right.
  - right. split; [done|]. eexists. by apply makeAIMove_moves.
Qed.

Lemma handleCellClick_shape k g :
  handleCellClick k g = (Returned, g, [])
  ∨ gameActive g = true ∧ read (board g) k = Some Blank
    ∧ (handleCellClick k g).1.2 = (makeMove k (currentPlayer g) g).1.2.
Proof.
  destruct (gameActive g) eqn:Ha;
    [|left; apply handleCellClick_rejected; by left].
  destruct (decide (read (board g) k = Some Blank)) as [Hb|Hb].
  - right. split_and!; [done..|].
    by destruct (handleCellClick_accepted k g Ha Hb) as [-> _].
  - left. apply handleCellClick_rejected. by right.
Qed.

Lemma handler_outcome e g : outcome e g (handler e g).1.2.
Proof.
  destruct e as [i|r1 r2| | | |m|d]; cbn [handler].
  - destruct (handleCellClick_shape i g) as [->|(Ha & Hb & ->)];
      [by apply Untouched|].
    eapply Moved; [done..|]. by left.
  - destruct (gameActive g) eqn:Ha;
      [|rewrite makeAIMove_idle by auto; by apply Untouched].
    destruct (decide (chosenMove (aiDifficulty g) r1 r2 (board g)
                      = Idx (-1))) as [Hm|Hm];
      [rewrite makeAIMove_idle by auto; by apply Untouched|].
    rewrite (makeAIMove_moves r1 r2 g _ Ha eq_refl Hm).
    eapply Moved; [done..|]. right. by exists r1, r2.
  - by apply NewGame.
  - by apply NewGame.
  - by apply Settings.
  - by apply NewGame.
  - by apply Settings.
Qed.

Lemma step_object e w :
  object (step e w).1 = object w
  ∨ object (step e w).1 = (handler e (object w)).1.2.
Proof. unfold step. destruct e, (timers w); auto. Qed.

Lemma step_outcome e w : outcome e (object w) (object (step e w).1).
Proof.
  destruct (step_object e w) as [-> | ->];
    [by apply Untouched|apply handler_outcome].
Qed.

Lemma run_invariant (Q : event → Prop) (P : world → Prop) :
  (∀ e w, Q e → P w → P (step e w).1) →
  ∀ es w, Forall Q es → P w → P (run es w).1.
Proof.
  intros Hstep es. induction es as [|e es IH]; intros w HQ HP; simpl;
    [done|].
  inversion HQ; subst. apply IH; [done|]. by apply Hstep.
Qed.

(** ** Invariants of the reachable states *)

Lemma loaded_length x o d es :
  length (board (object (run es (loaded x o d)).1)) = 9.
Proof.
  by destruct (run_consistent es (loaded x o d) 0
                 (constructor_consistent x o d)) as (? & _).
Qed.

Lemma checkGameEnd_None_blank (b : array) :
  checkGameEnd b = None → noWin b winningCombinations ∧ Some Blank ∈ b.
Proof.
  unfold checkGameEnd.
  destruct (firstWin b winningCombinations) eqn:Hw; [done|].
  destruct (every_nonblank b) eqn:He; [done|]. intros _.
  split; [by apply firstWin_None|by apply every_nonblank_false].
Qed.

Lemma checkGameEnd_Win (b : array) q l :
  checkGameEnd b = Some (Win q l) →
  l ∈ winningCombinations ∧ wins b q l.
Proof.
  unfold checkGameEnd.
  destruct (firstWin b winningCombinations) as [r|] eqn:Hw.
  - intros [= ->]. apply firstWin_Win in Hw as (i & Hi & Hwins & _).
    split; [by eapply list_elem_of_lookup_2|done].
  - by destruct (every_nonblank b).
Qed.

Lemma makeMove_playable k p g :
  cellOnPage k = true → playable (makeMove k p g).1.2.
Proof.
  intros Hk.
  destruct (makeMove_facts k p g Hk) as (Hb & _ & _ & _ & _ & Hend).
  unfold playable. rewrite Hb.
  destruct (checkGameEnd (write (board g) k (Mark p))).
  - destruct Hend as (-> & _). done.
  - done.
Qed.

(** The cell of a move, a click that is let through or the choice of
    the computer, is an empty cell. *)
Lemma moved_blank e g k p :
  length (board g) = 9 →
  (e = CellClick k ∧ p = currentPlayer g ∧ read (board g) k = Some Blank)
  ∨ (∃ r1 r2, e = TimerFires r1 r2 ∧ p = O
       ∧ k = chosenMove (aiDifficulty g) r1 r2 (board g)
       ∧ k ≠ Idx (-1)) →
  read (board g) k = Some Blank.
Proof.
  intros Hlen [(_ & _ & ?)|(r1 & r2 & _ & _ & -> & Hne)]; [done|].
  destruct (chosenMove_legal (aiDifficulty g) r1 r2 (board g) Hlen)
    as [?|(z' & Hm & ?)]; [done|].
  by rewrite Hm.
Qed.

Lemma step_length e w :
  length (board (object w)) = 9 →
  length (board (object (step e w).1)) = 9.
Proof.
  intros Hlen.
  destruct (step_outcome e w) as [->|Hb _ _ _ _|_ Hb _ _ _|k p _ _ -> Hk].
  - done.
  - by rewrite Hb.
  - by rewrite Hb.
  - rewrite makeMove_board.
    destruct (write_blank (board (object w)) k p) as [_ ->];
      [by eapply moved_blank|done].
Qed.

Lemma step_playable e w n :
  consistent (object w) n →
  playable (object w) → playable (object (step e w).1).
Proof.
  intros (Hlen & _) Hp.
  destruct (step_outcome e w)
    as [->|Hb _ Ha _ _|_ Hb _ _ _|k p _ _ -> Hk].
  - done.
  - unfold playable. by rewrite Hb, Ha.
  - unfold playable. by rewrite Hb.
  - apply makeMove_playable.
    eapply blank_onPage; [done|]. by eapply moved_blank.
Qed.

Lemma run_playable es w n :
  consistent (object w) n →
  playable (object w) → playable (object (run es w).1).
Proof.
  revert w n. induction es as [|e es IH]; intros w n Hc Hp; simpl; [done|].
  eapply IH; [by apply step_consistent|by eapply step_playable].
Qed.

Lemma loaded_playable x o d es :
  playable (object (run es (loaded x o d)).1).
Proof.
  eapply run_playable; [apply constructor_consistent|done].
Qed.

(** A move into an empty cell of a board without a won line can only
    win on a line through that cell, and only for the mark written. *)
Lemma win_through_played_cell (b : array) k p q l :
  checkGameEnd b = None → read b k = Some Blank →
  checkGameEnd (write b k (Mark p)) = Some (Win q l) →
  q = p ∧ onLine k l.
Proof.
  intros [Hno _]%checkGameEnd_None_blank Hk [Hin Hw]%checkGameEnd_Win.
  destruct Hw as (Ha & Hb & Hc). unfold onLine.
  destruct (decide (k = Idx l.1.1)) as [->|Hna].
  { rewrite (read_write_same _ _ _ _ Hk) in Ha. split; [congruence|auto]. }
  destruct (decide (k = Idx l.1.2)) as [->|Hnb].
  { rewrite (read_write_same _ _ _ _ Hk) in Hb. split; [congruence|auto]. }
  destruct (decide (k = Idx l.2)) as [->|Hnc].
  { rewrite (read_write_same _ _ _ _ Hk) in Hc. split; [congruence|auto]. }
  rewrite (read_write_other _ _ _ _ _ Hk) in Ha by done.
  rewrite (read_write_other _ _ _ _ _ Hk) in Hb by done.
  rewrite (read_write_other _ _ _ _ _ Hk) in Hc by done.
  by destruct (Hno l q Hin).
Qed.

(** X1.  In every state the page can reach, a cell that holds a mark
    keeps it through every event that does not start a new game: no
    click and no computer move writes over a mark. *)
Theorem marks_are_never_overwritten x o d es e z p :
  let w := (run es (loaded x o d)).1 in
  startsNewGame e = false →
  read (board (object w)) (Idx z) = Some (Mark p) →
  read (board (object (step e w).1)) (Idx z) = Some (Mark p).
Proof.
  cbv zeta. set (w := (run es (loaded x o d)).1). intros He Hz.
  assert (length (board (object w)) = 9) as Hlen by apply loaded_length.
  destruct (step_outcome e w) as [->|Hb _ _ _ _|Hn _ _ _ _|k q _ _ -> Hk].
  - done.
  - by rewrite Hb.
  - congruence.
  - rewrite makeMove_board.
    assert (read (board (object w)) k = Some Blank) as Hblank
      by (by eapply moved_blank).
    rewrite (read_write_other _ _ _ _ _ Hblank); [done|].
    intros ->. congruence.
Qed.

Lemma marks_are_never_overwritten_witness :
  let w := (run [CellClick (Idx 4)] (loaded 0 0 0)).1 in
  read (board (object (step (CellClick (Idx 4)) w).1)) (Idx 4)
  = Some (Mark X).
Proof.
  apply (marks_are_never_overwritten 0 0 0 [CellClick (Idx 4)]
           (CellClick (Idx 4)) 4 X); reflexivity.
Defined.

(** X2.  Once the game is over, no event but one that starts a new game
    changes the board, the turn or the status: clicks and computer moves
    are ignored. *)
Theorem finished_game_is_frozen e w :
  gameActive (object w) = false → startsNewGame e = false →
  board (object (step e w).1) = board (object w)
  ∧ currentPlayer (object (step e w).1) = currentPlayer (object w)
  ∧ gameActive (object (step e w).1) = false.
Proof.
  intros Hover He.
  destruct (step_outcome e w) as [->|Hb Hc Ha _ _|Hn _ _ _ _|k q Ha _ _ _].
  - done.
  - by rewrite Hb, Hc, Ha.
  - congruence.
  - congruence.
Qed.

Lemma finished_game_is_frozen_witness :
  let g := Game [Some (Mark X); Some (Mark X); Some (Mark X);
                 Some (Mark O); Some (Mark O); Some Blank;
                 Some Blank; Some Blank; Some Blank]
             X false Ai Hard (Tally 1 0 0) in
  let w' := (step (TimerFires (Rand 0 0) (Rand 0 0)) (World g 1)).1 in
  board (object w') = board g
  ∧ currentPlayer (object w') = X
  ∧ gameActive (object w') = false.
Proof.
  apply (finished_game_is_frozen (TimerFires (Rand 0 0) (Rand 0 0))
           (World (Game [Some (Mark X); Some (Mark X); Some (Mark X);
                         Some (Mark O); Some (Mark O); Some Blank;
                         Some Blank; Some Blank; Some Blank]
                     X false Ai Hard (Tally 1 0 0)) 1)); reflexivity.
Defined.

(** X3.  In every state the page can reach, a move into an empty cell
    that ends the game with a win wins on a line through the cell just
    played, for the mark just written, and it is that mark's counter
    that goes through [++]; the counter gains exactly one whenever the
    three counters are safe integers with room for one more. *)
Theorem win_goes_to_the_mover x o d es k p q l :
  let g := object (run es (loaded x o d)).1 in
  let g' := (makeMove k p g).1.2 in
  gameActive g = true → read (board g) k = Some Blank →
  checkGameEnd (board g') = Some (Win q l) →
  q = p ∧ onLine k l
  ∧ scores g' = counted (Win p l) (scores g)
  ∧ (staysSafe (scores g) 1 → scores g' = credit (Win p l) (scores g)).
Proof.
  cbv zeta. set (g := object (run es (loaded x o d)).1).
  intros Ha Hk.
  assert (cellOnPage k = true) as Hon
    by (eapply blank_onPage; [apply loaded_length|done]).
  destruct (makeMove_facts k p g Hon) as (Hb & _ & _ & _ & _ & Hend).
  rewrite Hb. intros Hw. rewrite Hw in Hend. destruct Hend as (_ & _ & ->).
  pose proof (loaded_playable x o d es Ha) as Hplay. fold g in Hplay.
  destruct (win_through_played_cell _ _ _ _ _ Hplay Hk Hw) as [-> ?].
  split_and!; [done..|]. intros Hsafe. by rewrite counted_safe.
Qed.

Lemma win_goes_to_the_mover_witness :
  let g := object (run [CellClick (Idx 0); CellClick (Idx 3);
                        CellClick (Idx 1); CellClick (Idx 4)]
                     (loaded 0 0 0)).1 in
  X = X ∧ onLine (Idx 2) (0, 1, 2)%Z
  ∧ scores (makeMove (Idx 2) X g).1.2
    = counted (Win X (0, 1, 2)%Z) (scores g)
  ∧ scores (makeMove (Idx 2) X g).1.2
    = credit (Win X (0, 1, 2)%Z) (scores g).
Proof.
  destruct (win_goes_to_the_mover 0 0 0
           [CellClick (Idx 0); CellClick (Idx 3);
            CellClick (Idx 1); CellClick (Idx 4)] (Idx 2) X X (0, 1, 2)%Z)
    as (Hq & Hl & Hc & Hs); [reflexivity..|].
  split_and!; [exact Hq|exact Hl|exact Hc|].
  apply Hs. unfold staysSafe, safeInteger. vm_compute. intuition discriminate.
Defined.

(** X4.  A game takes at most nine moves: after any sequence of events
    the number of moves since the board was last cleared is at most
    nine, and it is below nine whenever the game is still active. *)
Theorem game_ends_within_nine_moves x o d es :
  let r := run es (loaded x o d) in
  movesSinceReset r.2 ≤ 9
  ∧ (gameActive (object r.1) = true → movesSinceReset r.2 < 9).
Proof.
  cbv zeta.
  destruct (run_consistent es (loaded x o d) 0 (constructor_consistent x o d))
    as (Hlen & Hfill & _).
  fold (movesSinceReset (run es (loaded x o d)).2) in Hfill.
  rewrite <-Hfill, <-Hlen. split; [apply filled_le_length|].
  intros Ha. apply filled_blank_lt.
  by apply (loaded_playable x o d es) in Ha as [_ ?]%checkGameEnd_None_blank.
Qed.

(** ** Two-player play *)

Lemma makeMove_alternating k g :
  length (board g) = 9 →
  gameActive g = true → read (board g) k = Some Blank →
  alternating g → alternating (makeMove k (currentPlayer g) g).1.2.
Proof.
  intros Hlen Ha Hk Halt.
  destruct (makeMove_facts k (currentPlayer g) g
              (blank_onPage _ _ _ Hlen Hk))
    as (Hb & _ & _ & _ & _ & Hend).
  unfold alternating in *. rewrite Hb, !countMark_write, Halt, Ha by done.
  destruct (checkGameEnd _); destruct Hend as (-> & -> & _); rewrite ?Ha;
    destruct (currentPlayer g); simpl; lia.
Qed.

Lemma handleCellClick_log k g :
  length (board g) = 9 →
  gameActive g = true → read (board g) k = Some Blank →
  let m := makeMove k (currentPlayer g) g in
  (handleCellClick k g).2
  = m.2 ++ (if gameActive m.1.2 && bool_decide (gameMode m.1.2 = Ai)
               && bool_decide (currentPlayer m.1.2 = O)
            then [SetTimeoutMakeAIMove] else []).
Proof.
  intros Hlen Ha Hb.
  pose proof (makeMove_returned k (currentPlayer g) g
                (blank_onPage _ _ _ Hlen Hb)) as Hret.
  unfold handleCellClick, unlessThrown, mbind, M_bind, this.
  cbn [fst snd]. rewrite Ha, bool_decide_eq_false_2 by (by intros ?).
  cbn [negb orb app].
  destruct (makeMove k (currentPlayer g) g) as [[c g1] log].
  cbn [fst snd] in *. subst c. cbn [fst snd].
  destruct (_ && _); simpl; by rewrite ?app_nil_r.
Qed.

Lemma scheduled_app l1 l2 : scheduled (l1 ++ l2) = scheduled l1 + scheduled l2.
Proof. unfold scheduled. by rewrite List.filter_app, length_app. Qed.

Lemma handleCellClick_pvp k g :
  length (board g) = 9 →
  gameMode g = Pvp →
  scheduled (handleCellClick k g).2 = 0
  ∧ gameMode (handleCellClick k g).1.2 = Pvp.
Proof.
  intros Hlen Hm.
  destruct (handleCellClick_shape k g) as [->|(Ha & Hb & Hg)]; [done|].
  destruct (makeMove_facts k (currentPlayer g) g
              (blank_onPage _ _ _ Hlen Hb))
    as (_ & Hmode & _ & _ & Hs & _).
  rewrite Hg, Hmode, (handleCellClick_log k g Hlen Ha Hb). cbv zeta.
  rewrite scheduled_app, Hs, Hmode, Hm.
  rewrite (bool_decide_eq_false_2 (Pvp = Ai)) by done.
  by rewrite andb_false_r.
Qed.

Lemma step_two_players e w :
  e ≠ ModeClick Ai →
  length (board (object w)) = 9 ∧ twoPlayers w ∧ alternating (object w) →
  length (board (object (step e w).1)) = 9
  ∧ twoPlayers (step e w).1 ∧ alternating (object (step e w).1).
Proof.
  intros He (Hlen & [Hm Ht] & Halt). split; [by apply step_length|].
  unfold twoPlayers, step. rewrite Ht.
  destruct e as [k|r1 r2| | | |[]|d]; cbn [handler fst snd object timers];
    try done.
  destruct (handleCellClick_pvp k (object w) Hlen Hm) as [-> ->].
  split; [done|].
  destruct (handleCellClick_shape k (object w)) as [->|(Ha & Hk & ->)];
    [done|by apply makeMove_alternating].
Qed.

(** X5.  As long as the computer mode is never selected, the two marks
    alternate: X has as many marks on the board as O or one more, while
    the game is active it is X's turn exactly when they have equally
    many, and no computer move is ever scheduled. *)
Theorem two_players_alternate x o d es :
  Forall (λ e, e ≠ ModeClick Ai) es →
  let w := (run es (loaded x o d)).1 in
  let b := board (object w) in
  countMark O b ≤ countMark X b ≤ countMark O b + 1
  ∧ (gameActive (object w) = true →
     (currentPlayer (object w) = X ↔ countMark X b = countMark O b))
  ∧ timers w = 0.
Proof.
  intros Hes. cbv zeta.
  assert (length (board (object (run es (loaded x o d)).1)) = 9
          ∧ twoPlayers (run es (loaded x o d)).1
          ∧ alternating (object (run es (loaded x o d)).1))
    as (_ & [_ Ht] & Halt).
  { apply (run_invariant (λ e, e ≠ ModeClick Ai)
             (λ w, length (board (object w)) = 9
                   ∧ twoPlayers w ∧ alternating (object w)));
      [apply step_two_players|done|done]. }
  unfold alternating in Halt. split_and!; [..|done].
  - repeat case_match; lia.
  - repeat case_match; lia.
  - intros Ha. rewrite Ha in Halt.
    destruct (currentPlayer _); simpl in Halt; split; (done || lia).
Qed.

Lemma two_players_alternate_witness :
  let w := (run [CellClick (Idx 4); CellClick (Idx 0); CellClick (Idx 8)]
              (loaded 0 0 0)).1 in
  let b := board (object w) in
  countMark O b ≤ countMark X b ≤ countMark O b + 1
  ∧ (gameActive (object w) = true →
     (currentPlayer (object w) = X ↔ countMark X b = countMark O b))
  ∧ timers w = 0.
Proof.
  apply (two_players_alternate 0 0 0
           [CellClick (Idx 4); CellClick (Idx 0); CellClick (Idx 8)]).
  repeat constructor; discriminate.
Defined.

(** ** What the strategy achieves *)

Lemma elem_of_subPatterns s l :
  s ∈ subPatterns l →
  (s.1.1 = l.1.1 ∧ s.1.2 = l.1.2 ∧ s.2 = l.2)
  ∨ (s.1.1 = l.1.1 ∧ s.1.2 = l.2 ∧ s.2 = l.1.2)
  ∨ (s.1.1 = l.1.2 ∧ s.1.2 = l.2 ∧ s.2 = l.1.1).
Proof.
  destruct l as [[a b] c]. unfold subPatterns.
  rewrite !elem_of_cons, elem_of_nil. intros [->|[->|[->|[]]]]; auto.
Qed.

(** [completeLine] finds a gap exactly when some line can be completed. *)
Lemma completeLine_canComplete p (b : array) z :
  completeLine p b winningCombinations = Some z →
  ∃ l, canComplete p b l z.
Proof.
  rewrite completeLine_find.
  destruct (List.find _ _) as [[[c1 c2] g]|] eqn:Hf; [|done].
  intros [= <-]. apply List.find_some in Hf as [Hin Hs].
  apply in_flat_map in Hin as (l & Hl & Hp).
  exists l. split; [by apply list_elem_of_In|].
  exists c1, c2. split; [by apply list_elem_of_In|].
  unfold twoPlusGap in Hs. cbn [fst snd] in Hs.
  apply andb_true_iff in Hs as [[?%holds_true ?%holds_true]%andb_true_iff
                                  ?%holds_true].
  done.
Qed.

Lemma canComplete_completeLine p (b : array) l z :
  canComplete p b l z →
  ∃ z', completeLine p b winningCombinations = Some z'.
Proof.
  intros (Hl & c1 & c2 & Hs & H1 & H2 & Hg).
  rewrite completeLine_find.
  destruct (List.find (twoPlusGap p b) (flat_map subPatterns
              winningCombinations)) as [s|] eqn:Hf; [by eexists|].
  exfalso. pose proof (List.find_none _ _ Hf (c1, c2, z)) as Hn.
  unfold twoPlusGap in Hn. cbn [fst snd] in Hn.
  rewrite (proj2 (holds_true _ _ _) H1), (proj2 (holds_true _ _ _) H2),
    (proj2 (holds_true _ _ _) Hg) in Hn.
  assert (true = false) as Habs; [|done].
  apply Hn, in_flat_map. exists l. split; by apply list_elem_of_In.
Qed.

(** Filling the gap of a line that can be completed wins that line. *)
Lemma canComplete_wins p (b : array) l z :
  canComplete p b l z → wins (write b (Idx z) (Mark p)) p l.
Proof.
  intros (Hl & c1 & c2 & Hs & H1 & H2 & Hg).
  assert (∀ c, read b (Idx c) = Some (Mark p) →
               read (write b (Idx z) (Mark p)) (Idx c) = Some (Mark p)) as Hk.
  { intros c Hc. rewrite (read_write_other _ _ _ _ _ Hg); [done|].
    intros [= <-]. congruence. }
  pose proof (read_write_same _ _ _ (Mark p) Hg) as Hz.
  apply Hk in H1, H2. unfold wins.
  apply elem_of_subPatterns in Hs. cbn [fst snd] in Hs.
  destruct Hs as [(<- & <- & <-)|[(<- & <- & <-)|(<- & <- & <-)]]; done.
Qed.

Lemma wins_checkGameEnd (b : array) p l :
  l ∈ winningCombinations → wins b p l →
  ∃ q l', checkGameEnd b = Some (Win q l').
Proof.
  intros Hl Hw. unfold checkGameEnd.
  destruct (firstWin b winningCombinations) as [[q l'|]|] eqn:Hf.
  - by exists q, l'.
  - by apply firstWin_not_Draw in Hf.
  - apply firstWin_None in Hf. by destruct (Hf l p).
Qed.

Lemma canComplete_on_board p (b : array) l z :
  canComplete p b l z → on_board z.
Proof.
  intros (Hl & c1 & c2 & Hs & _).
  apply elem_of_subPatterns in Hs. cbn [fst snd] in Hs.
  pose proof winningCombinations_on_board as Hall.
  rewrite Forall_forall in Hall. destruct (Hall l Hl) as (? & ? & ?).
  destruct Hs as [(_ & _ & ->)|[(_ & _ & ->)|(_ & _ & ->)]]; done.
Qed.

(** X6.  The hard computer never misses a win: in an active game whose
    board has no won line, if some winning line holds two O and an
    empty third cell, the computer's move at the hard difficulty ends
    the game with a win for O, and O's counter goes through [++]; the
    counter gains exactly one whenever the three counters are safe
    integers with room for one more. *)
Theorem hard_takes_the_winning_move r1 r2 g l z :
  gameActive g = true → aiDifficulty g = Hard →
  checkGameEnd (board g) = None →
  canComplete O (board g) l z →
  let g' := (makeAIMove r1 r2 g).1.2 in
  gameActive g' = false
  ∧ ∃ l', checkGameEnd (board g') = Some (Win O l')
          ∧ scores g' = counted (Win O l') (scores g)
          ∧ (staysSafe (scores g) 1 →
             scores g' = credit (Win O l') (scores g)).
Proof.
  intros Ha Hd Hplay Hcan. cbv zeta.
  destruct (canComplete_completeLine _ _ _ _ Hcan) as [z' Hz'].
  destruct (completeLine_canComplete _ _ _ Hz') as (l0 & Hcan').
  assert (chosenMove (aiDifficulty g) r1 r2 (board g) = Idx z') as Hm.
  { rewrite Hd. simpl. unfold getHardMove, getStrategicMove. by rewrite Hz'. }
  assert (read (board g) (Idx z') = Some Blank) as Hblank
    by (by destruct Hcan' as (_ & ? & ? & _ & _ & _ & ?)).
  assert (cellOnPage (Idx z') = true) as Hon.
  { apply bool_decide_eq_true. by apply (canComplete_on_board _ _ _ _ Hcan'). }
  rewrite (makeAIMove_moves r1 r2 g (Idx z') Ha Hm)
    by (intros [= ->]; apply read_Some_lt in Hblank; lia).
  destruct (makeMove_facts (Idx z') O g Hon) as (Hb & _ & _ & _ & _ & Hend).
  rewrite Hb.
  destruct (wins_checkGameEnd _ O l0 (proj1 Hcan')
              (canComplete_wins _ _ _ _ Hcan')) as (q & l' & Hw).
  rewrite Hw in Hend. destruct Hend as (-> & _ & ->).
  destruct (win_through_played_cell _ _ _ _ _ Hplay Hblank Hw) as [-> _].
  split; [done|]. exists l'. split_and!; [done..|].
  intros Hsafe. by rewrite counted_safe.
Qed.

Lemma hard_takes_the_winning_move_witness :
  let g := Game [Some (Mark X); Some (Mark X); Some Blank;
                 Some (Mark O); Some (Mark O); Some Blank;
                 Some Blank; Some Blank; Some (Mark X)]
             O true Ai Hard (Tally 0 0 0) in
  let g' := (makeAIMove (Rand 0 0) (Rand 0 0) g).1.2 in
  gameActive g' = false
  ∧ ∃ l', checkGameEnd (board g') = Some (Win O l')
          ∧ scores g' = counted (Win O l') (scores g)
          ∧ scores g' = credit (Win O l') (scores g).
Proof.
  destruct (hard_takes_the_winning_move (Rand 0 0) (Rand 0 0)
           (Game [Some (Mark X); Some (Mark X); Some Blank;
                  Some (Mark O); Some (Mark O); Some Blank;
                  Some Blank; Some Blank; Some (Mark X)]
              O true Ai Hard (Tally 0 0 0)) (3, 4, 5)%Z 5%Z)
    as (Ha & l' & Hw & Hc & Hs); [reflexivity..| |].
  - split; [unfold winningCombinations; rewrite !elem_of_cons; auto|].
    exists 3%Z, 4%Z. split; [left|done].
  - split; [exact Ha|]. exists l'. split_and!; [exact Hw|exact Hc|].
    apply Hs. unfold staysSafe, safeInteger. vm_compute.
    intuition discriminate.
Defined.

(** X7.  The hard computer blocks: when no line can be completed by O
    but some line holds two X and an empty third cell, the move at the
    hard difficulty is the empty cell of such a line. *)
Theorem hard_blocks_a_threat r (b : array) l z :
  (∀ l0 z0, ¬ canComplete O b l0 z0) →
  canComplete X b l z →
  ∃ l' z', getHardMove r b = Idx z' ∧ canComplete X b l' z'.
Proof.
  intros Hno Hcan. unfold getHardMove, getStrategicMove.
  destruct (completeLine O b winningCombinations) as [z0|] eqn:HO.
  { apply completeLine_canComplete in HO as (l0 & ?). by destruct (Hno l0 z0). }
  destruct (canComplete_completeLine _ _ _ _ Hcan) as [z' Hz'].
  rewrite Hz'. apply completeLine_canComplete in Hz' as (l' & ?). eauto.
Qed.

Lemma hard_blocks_a_threat_witness :
  let b := [Some (Mark X); Some Blank; Some Blank;
            Some Blank; Some (Mark X); Some Blank;
            Some (Mark O); Some Blank; Some Blank] in
  ∃ l' z', getHardMove (Rand 0 0) b = Idx z' ∧ canComplete X b l' z'.
Proof.
  apply (hard_blocks_a_threat (Rand 0 0)
           [Some (Mark X); Some Blank; Some Blank;
            Some Blank; Some (Mark X); Some Blank;
            Some (Mark O); Some Blank; Some Blank] (0, 4, 8)%Z 8%Z).
  - intros l0 z0 (Hl & c1 & c2 & Hs & H1 & H2 & _).
    unfold winningCombinations in Hl. rewrite !elem_of_cons, elem_of_nil in Hl.
    apply elem_of_subPatterns in Hs. cbn [fst snd] in Hs.
    destruct Hl as [->|[->|[->|[->|[->|[->|[->|[->|[]]]]]]]]];
      cbn [fst snd] in Hs;
      destruct Hs as [(-> & -> & _)|[(-> & -> & _)|(-> & -> & _)]];
      discriminate.
  - split; [unfold winningCombinations; rewrite !elem_of_cons; auto 10|].
    exists 0%Z, 4%Z. split; [left|done].
Defined.

(** X8.  The random choice plays exactly the empty cells: on a board of
    at most nine cells, a cell number other than -1 can come out of
    [getRandomMove] for some random number if and only if that cell is
    empty. *)
Theorem random_move_reaches_exactly_the_empty_cells (b : array) z :
  length b ≤ 9 →
  read b (Idx z) = Some Blank
  ↔ z ≠ (-1)%Z ∧ ∃ r, getRandomMove r b = Idx z.
Proof.
  intros Hlen. split.
  - intros Hz. split; [intros ->; apply read_Some_lt in Hz; lia|].
    apply read_Some in Hz as (n & [= ->] & Hn & _).
    assert (Z.of_nat n ∈ availableMoves b) as Hin
      by (apply elem_of_availableMoves; eauto).
    apply list_elem_of_lookup_1 in Hin as (k & Hk).
    pose proof (lookup_lt_Some _ _ _ Hk) as Hlt.
    exists (Rand k (length (availableMoves b) - k - 1)).
    unfold getRandomMove. rewrite bool_decide_eq_true_2 by lia.
    unfold floorTimes. cbn [numer gap].
    replace (k + (length (availableMoves b) - k - 1) + 1)
      with (length (availableMoves b)) by lia.
    rewrite Nat.div_mul by lia. by rewrite Hk.
  - intros [Hne (r & Hr)].
    destruct (decide (Some Blank ∈ b)) as [Hin|Hfull].
    + destruct (getRandomMove_blank r b Hlen Hin) as (z' & Hz' & ?).
      congruence.
    + rewrite (getRandomMove_full r b Hfull) in Hr. congruence.
Qed.

Lemma random_move_reaches_exactly_the_empty_cells_witness :
  let b := [Some (Mark X); Some Blank; Some (Mark O);
            Some Blank; Some (Mark X); Some Blank;
            Some (Mark O); Some Blank; Some Blank] in
  read b (Idx 7) = Some Blank
  ↔ 7%Z ≠ (-1)%Z ∧ ∃ r, getRandomMove r b = Idx 7.
Proof.
  apply (random_move_reaches_exactly_the_empty_cells
           [Some (Mark X); Some Blank; Some (Mark O);
            Some Blank; Some (Mark X); Some Blank;
            Some (Mark O); Some Blank; Some Blank] 7).
  simpl. lia.
Defined.

(** X9.  One round against the computer.  In computer mode with X to
    move and no callback waiting, a click on an empty cell that does not
    end the game schedules exactly one computer move and gives the turn
    to O; when the timer fires, the computer writes one O into a cell
    that was empty, no callback is left waiting, and if the game goes on
    the turn is back with X. *)
Theorem computer_answers_the_click g k r1 r2 :
  length (board g) = 9 → gameActive g = true → gameMode g = Ai →
  currentPlayer g = X → read (board g) k = Some Blank →
  checkGameEnd (write (board g) k (Mark X)) = None →
  let w1 := (step (CellClick k) (World g 0)).1 in
  let w2 := (step (TimerFires r1 r2) w1).1 in
  timers w1 = 1
  ∧ board (object w1) = write (board g) k (Mark X)
  ∧ currentPlayer (object w1) = O
  ∧ timers w2 = 0
  ∧ (∃ z, read (board (object w1)) (Idx z) = Some Blank
          ∧ board (object w2) = write (board (object w1)) (Idx z) (Mark O))
  ∧ (gameActive (object w2) = true → currentPlayer (object w2) = X).
Proof.
  intros Hlen Ha Hm Hx Hk Hgo. cbv zeta.
  destruct (makeMove_facts k (currentPlayer g) g
              (blank_onPage _ _ _ Hlen Hk))
    as (Hb & Hmode & Hdiff & _ & Hs & Hend).
  assert (checkGameEnd (write (board g) k (Mark (currentPlayer g))) = None)
    as Hgo' by (by rewrite Hx).
  rewrite Hgo' in Hend. destruct Hend as (Ha1 & Hc1 & _).
  destruct (handleCellClick_accepted k g Ha Hk) as [Hg1 _].
  assert ((handleCellClick k g).2
          = (makeMove k (currentPlayer g) g).2 ++ [SetTimeoutMakeAIMove])
    as Hlog.
  { rewrite (handleCellClick_log k g Hlen Ha Hk). cbv zeta.
    by rewrite Ha1, Hmode, Hc1, Ha, Hm, Hx. }
  set (g1 := (makeMove k (currentPlayer g) g).1.2) in *.
  rewrite Hx in Hb, Hc1. simpl in Hc1.
  assert (step (CellClick k) (World g 0)
          = (World g1 1, (handleCellClick k g).2)) as Hstep1.
  { unfold step. cbn [handler object timers fst snd].
    rewrite Hg1, Hlog, scheduled_app, Hs. done. }
  rewrite Hstep1. cbn [fst object timers].
  assert (length (board g1) = 9) as Hlen1.
  { rewrite Hb. by destruct (write_blank (board g) k X Hk) as [_ ->]. }
  assert (hasEmptyCell (board g1)) as Hempty.
  { apply hasEmptyCell_elem_of; [done|]. rewrite Hb.
    by apply checkGameEnd_None_blank in Hgo as [_ ?]. }
  destruct (chosenMove_blank (aiDifficulty g1) r1 r2 (board g1) Hlen1 Hempty)
    as (z & Hz & _ & Hblank).
  assert (makeAIMove r1 r2 g1 = makeMove (Idx z) O g1) as Hai.
  { apply makeAIMove_moves; [by rewrite Ha1, Ha|done|].
    intros [= ->]. apply read_Some_lt in Hblank. lia. }
  unfold step. cbn [handler object timers fst snd]. rewrite Hai.
  destruct (makeMove_facts (Idx z) O g1 (blank_onPage _ _ _ Hlen1 Hblank))
    as (Hb2 & _ & _ & _ & Hs2 & Hend2).
  rewrite Hs2. split_and!; [done|done|by rewrite Hc1|done|by eauto|].
  destruct (checkGameEnd (write (board g1) (Idx z) (Mark O))).
  - destruct Hend2 as (-> & _). done.
  - destruct Hend2 as (_ & -> & _). by rewrite Hc1.
Qed.

Lemma computer_answers_the_click_witness :
  let g := Game emptyBoard X true Ai Hard (Tally 0 0 0) in
  let w1 := (step (CellClick (Idx 0)) (World g 0)).1 in
  let w2 := (step (TimerFires (Rand 0 0) (Rand 0 0)) w1).1 in
  timers w1 = 1
  ∧ board (object w1) = write (board g) (Idx 0) (Mark X)
  ∧ currentPlayer (object w1) = O
  ∧ timers w2 = 0
  ∧ (∃ z, read (board (object w1)) (Idx z) = Some Blank
          ∧ board (object w2) = write (board (object w1)) (Idx z) (Mark O))
  ∧ (gameActive (object w2) = true → currentPlayer (object w2) = X).
Proof.
  apply (computer_answers_the_click
           (Game emptyBoard X true Ai Hard (Tally 0 0 0)) (Idx 0)
           (Rand 0 0) (Rand 0 0)); reflexivity.
Defined.

(** * Storage and theme *)

Section storage_properties.

Context (accepts : gmap string string → string → string → bool).

Lemma validate_Storage m :
  validateLocalStorage accepts (Storage m)
  = if accepts m testKey testValue
    then (true, Storage (delete testKey m))
    else (false, Storage m).
Proof.
  unfold validateLocalStorage. destruct (accepts m testKey testValue); [|done].
  rewrite bool_decide_eq_false_2 by (rewrite lookup_insert_eq; by intros ?).
  by rewrite delete_insert_eq.
Qed.

(** X10.  The storage probe answers true exactly when the storage is
    there and takes the probe value.  It leaves the value of every other
    key as it was; a value kept under the probe's own key is lost when
    the probe succeeds. *)
Theorem storage_probe_keeps_other_keys m :
  let r := validateLocalStorage accepts (Storage m) in
  validateLocalStorage accepts Unavailable = (false, Unavailable)
  ∧ r.1 = accepts m testKey testValue
  ∧ ∃ m', r.2 = Storage m'
          ∧ (∀ k, k ≠ testKey → m' !! k = m !! k)
          ∧ (r.1 = true → m' !! testKey = None).
Proof.
  cbv zeta. rewrite validate_Storage. split; [done|].
  destruct (accepts m testKey testValue); simpl.
  - split; [done|]. exists (delete testKey m). split_and!; [done| |].
    + intros k Hk. by rewrite lookup_delete_ne.
    + intros _. by rewrite lookup_delete_eq.
  - split; [done|]. exists m. by split_and!.
Qed.

(** X11.  What is stored is read back: on a storage that never refuses
    a write, [safeSetLocalStorage] with a non-empty key answers true and
    a following [safeGetLocalStorage] of that key returns the stored
    value, except for the probe's own key, whose value the next probe
    removes, so that the default comes back. *)
Theorem stored_value_is_read_back k v d m :
  unlimited accepts → String.length k ≠ 0 →
  let s := safeSetLocalStorage accepts k v (Storage m) in
  s.1 = true
  ∧ (safeGetLocalStorage accepts k d s.2).1 = if bool_decide (k = testKey) then d else v.
Proof.
  intros Hun Hk. cbv zeta.
  unfold safeSetLocalStorage, safeGetLocalStorage.
  rewrite validate_Storage, Hun. cbn [fst snd negb].
  rewrite bool_decide_eq_false_2 by done. rewrite Hun. cbn [fst snd].
  split; [done|].
  rewrite validate_Storage, Hun. cbn [fst snd negb].
  case_bool_decide as Hkey.
  - subst k. by rewrite lookup_delete_eq.
  - rewrite lookup_delete_ne by congruence. by rewrite lookup_insert_eq.
Qed.

Lemma validate_false st : (validateLocalStorage accepts st).1 = false → validateLocalStorage accepts st = (false, st).
Proof.
  destruct st as [|m]; [done|]. rewrite validate_Storage.
  by destruct (accepts m testKey testValue).
Qed.

(** X12.  When the storage is not there, or refuses the probe write (it
    is full or read-only), nothing is read and nothing is written: a
    read returns the default even for a key that is stored, a write
    answers false, and the storage is left as it was. *)
Theorem full_storage_gives_defaults k v d st :
  (validateLocalStorage accepts st).1 = false →
  safeGetLocalStorage accepts k d st = (d, st) ∧ safeSetLocalStorage accepts k v st = (false, st).
Proof.
  intros Hv%validate_false. unfold safeGetLocalStorage, safeSetLocalStorage.
  by rewrite Hv.
Qed.

End storage_properties.

Lemma stored_value_is_read_back_witness :
  let s := safeSetLocalStorage roomy "theme" "dark" (Storage ∅) in
  s.1 = true
  ∧ (safeGetLocalStorage roomy "theme" "light" s.2).1
    = if bool_decide ("theme" = testKey) then "light" else "dark".
Proof.
  apply (stored_value_is_read_back roomy "theme" "dark" "light" ∅).
  - intros m k v. reflexivity.
  - simpl. lia.
Defined.

Lemma full_storage_gives_defaults_witness :
  let st := Storage (<["scoreX" := "7"]> ∅) in
  safeGetLocalStorage fullUp "scoreX" "0" st = ("0", st)
  ∧ safeSetLocalStorage fullUp "scoreX" "8" st = (false, st).
Proof.
  apply (full_storage_gives_defaults fullUp "scoreX" "8" "0"
           (Storage (<["scoreX" := "7"]> ∅))).
  reflexivity.
Defined.

Section theme_properties.

Context (accepts : gmap string string → string → string → bool).

Lemma elem_of_validThemes t : t ∈ validThemes ↔ t = "light" ∨ t = "dark".
Proof.
  unfold validThemes. rewrite !elem_of_cons, elem_of_nil. tauto.
Qed.

Lemma validThemes_nonempty t : t ∈ validThemes → String.length t ≠ 0.
Proof. intros [-> | ->]%elem_of_validThemes; simpl; lia. Qed.

Lemma setTheme_valid t pg :
  t ∈ validThemes →
  setTheme accepts t pg
  = let pg1 := setAttribute t pg in
    let v := validateLocalStorage accepts (storage pg1) in
    if v.1
    then withStorage (safeSetLocalStorage accepts "theme" t v.2).2 pg1
    else withStorage v.2 pg1.
Proof.
  intros Ht. unfold setTheme.
  rewrite (bool_decide_eq_false_2 _ (validThemes_nonempty t Ht)).
  by rewrite (bool_decide_eq_true_2 _ Ht).
Qed.

Lemma setTheme_invalid t pg :
  t ∉ validThemes →
  setTheme accepts t pg
  = setAttribute "light"
      (showError "Failed to set theme. Using default theme." pg).
Proof.
  intros Ht. unfold setTheme.
  by rewrite (bool_decide_eq_false_2 _ Ht), orb_true_r.
Qed.

Lemma setTheme_dom t pg :
  dataTheme (setTheme accepts t pg)
  = Some (if bool_decide (t ∈ validThemes) then t else "light")
  ∧ themeIcon (setTheme accepts t pg) = themeIcon pg
  ∧ themeToggle (setTheme accepts t pg) = themeToggle pg.
Proof.
  case_bool_decide as Ht.
  - rewrite setTheme_valid by done. cbv zeta. by destruct (validateLocalStorage accepts _).1.
  - by rewrite setTheme_invalid.
Qed.

Lemma updateThemeIcon_frame t pg :
  dataTheme (updateThemeIcon t pg) = dataTheme pg
  ∧ storage (updateThemeIcon t pg) = storage pg.
Proof.
  unfold updateThemeIcon.
  destruct (themeIcon pg), (themeToggle pg); try done.
  by case_bool_decide.
Qed.

Lemma orLight_nonempty x : String.length (orLight x) ≠ 0.
Proof.
  unfold orLight. destruct x as [s|]; [|simpl; lia].
  case_bool_decide; [simpl; lia|done].
Qed.

Lemma initializeTheme_dom pg :
  dataTheme (initializeTheme accepts pg)
  = Some (if bool_decide (savedTheme accepts (storage pg) ∈ validThemes)
          then savedTheme accepts (storage pg) else "light").
Proof.
  unfold initializeTheme, savedTheme.
  destruct (validateLocalStorage accepts (storage pg)) as [ok st1] eqn:Hv. cbn [fst snd].
  assert (storage (if negb ok
            then showError
                   "Local storage not available. Theme preferences will not be saved."
                   (withStorage st1 pg)
            else withStorage st1 pg) = st1) as -> by (by destruct ok).
  destruct st1 as [|m].
  - rewrite (proj1 (updateThemeIcon_frame _ _)).
    by rewrite (proj1 (setTheme_dom _ _)).
  - rewrite (proj1 (updateThemeIcon_frame _ _)).
    by rewrite (proj1 (setTheme_dom _ _)).
Qed.

(** X13.  The theme on the page is always one of the two themes: after
    [setTheme] the attribute is the requested theme if that is [light]
    or [dark] and [light] otherwise; after [toggleTheme] and after
    [initializeTheme], whatever the attribute and the storage held
    before, it is [light] or [dark]. *)
Theorem theme_is_always_light_or_dark t pg :
  dataTheme (setTheme accepts t pg)
  = Some (if bool_decide (t ∈ validThemes) then t else "light")
  ∧ (∃ s, dataTheme (toggleTheme accepts pg) = Some s ∧ s ∈ validThemes)
  ∧ (∃ s, dataTheme (initializeTheme accepts pg) = Some s ∧ s ∈ validThemes).
Proof.
  split_and!.
  - apply setTheme_dom.
  - unfold toggleTheme. cbv zeta.
    rewrite (proj1 (updateThemeIcon_frame _ _)), (proj1 (setTheme_dom _ _)).
    eexists. split; [done|].
    case_bool_decide; [done|]. apply elem_of_validThemes. by left.
  - rewrite initializeTheme_dom. eexists. split; [done|].
    case_bool_decide; [done|]. apply elem_of_validThemes. by left.
Qed.

Lemma toggleTheme_dataTheme pg :
  dataTheme (toggleTheme accepts pg)
  = Some (if bool_decide (orLight (dataTheme pg) = "light")
          then "dark" else "light").
Proof.
  unfold toggleTheme. cbv zeta.
  rewrite (proj1 (updateThemeIcon_frame _ _)), (proj1 (setTheme_dom _ _)).
  by destruct (bool_decide (orLight (dataTheme pg) = "light")).
Qed.

(** X14.  [toggleTheme] switches between the two themes, and toggling
    twice gives the theme back; an attribute that is missing or empty
    counts as [light]. *)
Theorem toggle_switches_and_twice_restores t pg :
  t ∈ validThemes →
  dataTheme pg = Some t ∨ (t = "light" ∧ orLight (dataTheme pg) = "light") →
  dataTheme (toggleTheme accepts pg) = Some (if bool_decide (t = "light")
                                then "dark" else "light")
  ∧ dataTheme (toggleTheme accepts (toggleTheme accepts pg)) = Some t.
Proof.
  intros Ht Hpg.
  assert (orLight (dataTheme pg) = t) as Hcur.
  { destruct Hpg as [-> | [-> ->]]; [|done].
    by apply elem_of_validThemes in Ht as [-> | ->]. }
  rewrite !toggleTheme_dataTheme, Hcur. split; [done|].
  by apply elem_of_validThemes in Ht as [-> | ->].
Qed.

(** X15.  When the icon and the button are on the page, [toggleTheme]
    and [initializeTheme] leave them in step with the theme: the sun and
    "Switch to light mode" on [dark], the moon and "Switch to dark mode"
    on [light]. *)
Theorem icon_follows_theme pg pg' :
  is_Some (themeIcon pg) → is_Some (themeToggle pg) →
  pg' = toggleTheme accepts pg ∨ pg' = initializeTheme accepts pg →
  (dataTheme pg' = Some "dark" ∧ themeIcon pg' = Some sunIcon
   ∧ themeToggle pg' = Some "Switch to light mode")
  ∨ (dataTheme pg' = Some "light" ∧ themeIcon pg' = Some moonIcon
     ∧ themeToggle pg' = Some "Switch to dark mode").
Proof.
  intros [i Hi] [l Hl].
  assert (∀ t q, themeIcon q = Some i → themeToggle q = Some l →
            dataTheme (updateThemeIcon t (setTheme accepts t q))
            = Some (if bool_decide (t = "dark") then "dark" else "light")
            ∧ themeIcon (updateThemeIcon t (setTheme accepts t q))
              = Some (if bool_decide (t = "dark") then sunIcon else moonIcon)
            ∧ themeToggle (updateThemeIcon t (setTheme accepts t q))
              = Some (if bool_decide (t = "dark")
                      then "Switch to light mode"
                      else "Switch to dark mode")) as Hboth.
  { intros t q Hqi Hql.
    destruct (setTheme_dom t q) as (Hd & Hi' & Hl').
    rewrite (proj1 (updateThemeIcon_frame _ _)), Hd.
    unfold updateThemeIcon. rewrite Hi', Hl', Hqi, Hql.
    destruct (decide (t = "dark")) as [->|Hnd]; [by split_and!|].
    rewrite !(bool_decide_eq_false_2 (t = "dark")) by done.
    split_and!; [|done..]. case_bool_decide as Hv; [|done].
    by apply elem_of_validThemes in Hv as [-> | ->]. }
  assert (∀ t q, themeIcon q = Some i → themeToggle q = Some l →
            let q' := updateThemeIcon t (setTheme accepts t q) in
            (dataTheme q' = Some "dark" ∧ themeIcon q' = Some sunIcon
             ∧ themeToggle q' = Some "Switch to light mode")
            ∨ (dataTheme q' = Some "light" ∧ themeIcon q' = Some moonIcon
               ∧ themeToggle q' = Some "Switch to dark mode")) as Hcases.
  { intros t q Hqi Hql. cbv zeta.
    destruct (Hboth t q Hqi Hql) as (-> & -> & ->).
    case_bool_decide; auto. }
  intros [-> | ->].
  - by apply Hcases.
  - unfold initializeTheme.
    destruct (validateLocalStorage accepts (storage pg)) as [[] st1]; cbn [fst snd negb];
      destruct st1; cbn [storage withStorage showError]; by apply Hcases.
Qed.

Lemma setTheme_storage t pg m :
  unlimited accepts → t ∈ validThemes → storage pg = Storage m →
  storage (setTheme accepts t pg)
  = Storage (<["theme" := t]> (delete testKey m)).
Proof.
  intros Hun Ht Hm. rewrite setTheme_valid by done. cbv zeta.
  cbn [storage setAttribute]. rewrite Hm.
  unfold safeSetLocalStorage.
  rewrite !validate_Storage, !Hun. cbn [fst snd negb].
  rewrite !validate_Storage, !Hun. cbn [fst snd negb].
  rewrite bool_decide_eq_false_2 by (simpl; lia).
  rewrite Hun. cbn [snd withStorage storage].
  by rewrite delete_delete_eq.
Qed.

(** X16.  The chosen theme survives a reload: on a storage that never
    refuses a write, after [setTheme] with [light] or [dark], a page
    that starts with that storage, whatever its attributes, comes up in
    the same theme after [initializeTheme]. *)
Theorem theme_survives_reload t pg reloaded :
  unlimited accepts → t ∈ validThemes →
  is_Some (match storage pg with Storage m => Some m | _ => None end) →
  storage reloaded = storage (setTheme accepts t pg) →
  dataTheme (initializeTheme accepts reloaded) = Some t.
Proof.
  intros Hun Ht [m Hm] Hst.
  destruct (storage pg) as [|m0] eqn:Hpg; [done|]. injection Hm as ->.
  rewrite (setTheme_storage t pg m Hun Ht Hpg) in Hst.
  rewrite initializeTheme_dom. unfold savedTheme.
  rewrite Hst, validate_Storage, Hun. cbn [snd].
  rewrite lookup_delete_ne by done. rewrite lookup_insert_eq.
  unfold orLight.
  rewrite (bool_decide_eq_false_2 _ (validThemes_nonempty t Ht)).
  by rewrite (bool_decide_eq_true_2 _ Ht).
Qed.

(** X17.  Without a storage the theme still works for the session:
    [toggleTheme] switches the attribute and reports nothing when the
    icon and the button are there, and [initializeTheme] comes up in
    [light] after reporting first that the storage is not available and
    then that the initialisation failed. *)
Theorem theme_works_without_storage pg :
  storage pg = Unavailable →
  dataTheme (toggleTheme accepts pg)
  = Some (if bool_decide (orLight (dataTheme pg) = "light")
          then "dark" else "light")
  ∧ storage (toggleTheme accepts pg) = Unavailable
  ∧ (is_Some (themeIcon pg) → is_Some (themeToggle pg) →
     shownErrors (toggleTheme accepts pg) = shownErrors pg)
  ∧ dataTheme (initializeTheme accepts pg) = Some "light"
  ∧ ∃ rest,
      shownErrors (initializeTheme accepts pg)
      = shownErrors pg
        ++ ["Local storage not available. Theme preferences will not be saved.";
            "Failed to initialize theme system. Using default light theme."]
        ++ rest.
Proof.
  intros Hst. split_and!.
  - apply toggleTheme_dataTheme.
  - unfold toggleTheme. cbv zeta.
    rewrite (proj2 (updateThemeIcon_frame _ _)).
    rewrite setTheme_valid by (by case_bool_decide; apply elem_of_validThemes; auto).
    cbv zeta. cbn [storage setAttribute]. by rewrite Hst.
  - intros [i Hi] [l Hl]. unfold toggleTheme. cbv zeta.
    set (t := if bool_decide (orLight (dataTheme pg) = "light")
              then "dark" else "light").
    assert (t ∈ validThemes) as Ht
      by (unfold t; case_bool_decide; apply elem_of_validThemes; auto).
    destruct (setTheme_dom t pg) as (_ & Hi' & Hl').
    assert (shownErrors (setTheme accepts t pg) = shownErrors pg) as He.
    { rewrite setTheme_valid by done. cbv zeta.
      cbn [storage setAttribute]. by rewrite Hst. }
    unfold updateThemeIcon. rewrite Hi', Hl', Hi, Hl.
    by case_bool_decide.
  - rewrite initializeTheme_dom. unfold savedTheme. by rewrite Hst.
  - set (q := showError
                "Failed to initialize theme system. Using default light theme."
                (showError
                   "Local storage not available. Theme preferences will not be saved."
                   (withStorage Unavailable pg))).
    assert (initializeTheme accepts pg = updateThemeIcon "light" (setTheme accepts "light" q))
      as -> by (unfold initializeTheme; by rewrite Hst).
    assert (shownErrors (setTheme accepts "light" q)
            = shownErrors pg
              ++ ["Local storage not available. Theme preferences will not be saved.";
                  "Failed to initialize theme system. Using default light theme."])
      as He.
    { rewrite setTheme_valid by (apply elem_of_validThemes; auto).
      cbv zeta. cbn. by rewrite <-app_assoc. }
    unfold updateThemeIcon.
    destruct (themeIcon (setTheme accepts "light" q)),
      (themeToggle (setTheme accepts "light" q)); [case_bool_decide|..];
      cbn [shownErrors showError]; rewrite He;
      (by exists []; rewrite app_nil_r)
      || (exists ["Failed to update theme icon."]; by rewrite <-app_assoc).
Qed.

End theme_properties.

Lemma toggle_switches_and_twice_restores_witness :
  let pg := Page (Storage ∅) (Some "dark") (Some "") (Some "") [] in
  dataTheme (toggleTheme roomy pg)
  = Some (if bool_decide ("dark" = "light") then "dark" else "light")
  ∧ dataTheme (toggleTheme roomy (toggleTheme roomy pg)) = Some "dark".
Proof.
  apply (toggle_switches_and_twice_restores roomy "dark"
           (Page (Storage ∅) (Some "dark") (Some "") (Some "") [])).
  - apply elem_of_validThemes. right. reflexivity.
  - left. reflexivity.
Defined.

Lemma icon_follows_theme_witness :
  let pg := Page Unavailable None (Some "") (Some "") [] in
  let pg' := toggleTheme roomy pg in
  (dataTheme pg' = Some "dark" ∧ themeIcon pg' = Some sunIcon
   ∧ themeToggle pg' = Some "Switch to light mode")
  ∨ (dataTheme pg' = Some "light" ∧ themeIcon pg' = Some moonIcon
     ∧ themeToggle pg' = Some "Switch to dark mode").
Proof.
  apply (icon_follows_theme roomy
           (Page Unavailable None (Some "") (Some "") [])).
  - eexists. reflexivity.
  - eexists. reflexivity.
  - left. reflexivity.
Defined.

Lemma theme_survives_reload_witness :
  let pg := Page (Storage (<["scoreX" := "3"]> ∅)) None None None [] in
  let reloaded :=
    Page (storage (setTheme roomy "dark" pg)) None (Some "") (Some "") [] in
  dataTheme (initializeTheme roomy reloaded) = Some "dark".
Proof.
  apply (theme_survives_reload roomy "dark"
           (Page (Storage (<["scoreX" := "3"]> ∅)) None None None [])).
  - intros m k v. reflexivity.
  - apply elem_of_validThemes. right. reflexivity.
  - eexists. reflexivity.
  - reflexivity.
Defined.

Lemma theme_works_without_storage_witness :
  let pg := Page Unavailable (Some "dark") (Some "") (Some "") [] in
  dataTheme (toggleTheme fullUp pg) = Some "light"
  ∧ dataTheme (initializeTheme fullUp pg) = Some "light".
Proof.
  destruct (theme_works_without_storage fullUp
              (Page Unavailable (Some "dark") (Some "") (Some "") [])
              eq_refl) as (H1 & _ & _ & H2 & _).
  split; [exact H1|exact H2].
Defined.

(** * Scores in the storage *)

(** ** Printing and reading numbers *)

Lemma isDecimal_char c :
  isDecimal c = true →
  isWhiteSpace c = false ∧ c ≠ "-"%char ∧ c ≠ "+"%char
  ∧ c ≠ "x"%char ∧ c ≠ "X"%char ∧ is_Some (digitOf 10 c).
Proof.
  destruct c as [[] [] [] [] [] [] [] []]; intros H; try discriminate H;
    by split_and!.
Qed.

Lemma pretty_N_char_digit x :
  (x < 10)%N →
  isDecimal (pretty_N_char x) = true
  ∧ digitOf 10 (pretty_N_char x) = Some (Z.of_N x).
Proof.
  intros Hx.
  assert (x = 0 ∨ x = 1 ∨ x = 2 ∨ x = 3 ∨ x = 4 ∨ x = 5 ∨ x = 6 ∨ x = 7
          ∨ x = 8 ∨ x = 9)%N as Hc by lia.
  destruct_or!; subst x; by split.
Qed.

Lemma pretty_N_go_decimal x s :
  allDecimal s = true → allDecimal (pretty_N_go x s) = true.
Proof.
  revert s. induction (N.lt_wf_0 x) as [x _ IH]. intros s Hs.
  assert (x = 0 ∨ 0 < x)%N as [->|Hx] by lia; [done|].
  rewrite pretty_N_go_step by done. apply IH; [by apply N.div_lt|].
  simpl. rewrite Hs, andb_true_r.
  apply pretty_N_char_digit. by apply N.mod_lt.
Qed.

Lemma pretty_N_go_nonempty x s : s ≠ "" → pretty_N_go x s ≠ "".
Proof.
  revert s. induction (N.lt_wf_0 x) as [x _ IH]. intros s Hs.
  assert (x = 0 ∨ 0 < x)%N as [->|Hx] by lia; [done|].
  rewrite pretty_N_go_step by done. apply IH; [by apply N.div_lt|done].
Qed.

(** Reading back what [pretty_N_go] put in front of [s]. *)
Lemma parseDigits_pretty_N_go x :
  ∃ k : nat, ∀ s acc,
    parseDigits 10 (pretty_N_go x s) acc
    = parseDigits 10 s (acc * 10 ^ Z.of_nat k + Z.of_N x)%Z.
Proof.
  induction (N.lt_wf_0 x) as [x _ IH].
  assert (x = 0 ∨ 0 < x)%N as [->|Hx] by lia.
  { exists 0. intros s acc. rewrite pretty_N_go_0. f_equal. simpl. lia. }
  destruct (IH (x `div` 10)%N) as [k Hk]; [by apply N.div_lt|].
  exists (S k). intros s acc.
  rewrite pretty_N_go_step, Hk by done. simpl.
  destruct (pretty_N_char_digit (x `mod` 10)%N) as [_ ->];
    [by apply N.mod_lt|].
  f_equal. rewrite Nat2Z.inj_succ, Z.pow_succ_r by lia.
  pose proof (N.div_mod x 10). lia.
Qed.

Lemma splitSign_decimal c rest :
  isDecimal c = true → splitSign (String c rest) = (1%Z, String c rest).
Proof.
  destruct c as [[] [] [] [] [] [] [] []]; intros H; by try discriminate H.
Qed.

Lemma splitRadix_decimal c rest :
  allDecimal (String c rest) = true →
  splitRadix (String c rest) = (10%Z, String c rest).
Proof.
  simpl. intros [Hc Hrest]%andb_true_iff.
  destruct c as [[] [] [] [] [] [] [] []]; try discriminate Hc; try done.
  destruct rest as [|c' r]; [done|]. simpl in Hrest.
  apply andb_true_iff in Hrest as [Hc' _].
  destruct c' as [[] [] [] [] [] [] [] []]; by try discriminate Hc'.
Qed.

Lemma parseInt_decimal c rest :
  allDecimal (String c rest) = true →
  parseInt (String c rest) = Some (parseDigits 10 (String c rest) 0).
Proof.
  intros Hd. pose proof Hd as [Hc _]%andb_true_iff.
  destruct (isDecimal_char c Hc) as (Hw & _ & _ & _ & _ & Hdig).
  unfold parseInt. cbn [trimStart]. rewrite Hw.
  rewrite splitSign_decimal by done. cbn [fst snd].
  rewrite splitRadix_decimal by done. cbn [fst snd startsWithDigit].
  rewrite bool_decide_eq_true_2 by done. f_equal; lia.
Qed.

Lemma parseInt_minus_decimal c rest :
  allDecimal (String c rest) = true →
  parseInt (String "-" (String c rest))
  = Some (- parseDigits 10 (String c rest) 0)%Z.
Proof.
  intros Hd. pose proof Hd as [Hc _]%andb_true_iff.
  destruct (isDecimal_char c Hc) as (_ & _ & _ & _ & _ & Hdig).
  unfold parseInt.
  change (splitSign (trimStart (String "-" (String c rest))))
    with ((-1)%Z, String c rest).
  cbn [fst snd]. rewrite splitRadix_decimal by done.
  cbn [fst snd startsWithDigit].
  rewrite bool_decide_eq_true_2 by done. f_equal; lia.
Qed.

Lemma pretty_N_go_parse x :
  (0 < x)%N →
  ∃ c rest, pretty_N_go x "" = String c rest
            ∧ allDecimal (String c rest) = true
            ∧ parseDigits 10 (String c rest) 0 = Z.of_N x.
Proof.
  intros Hx.
  destruct (pretty_N_go x "") as [|c rest] eqn:Hs.
  { rewrite pretty_N_go_step in Hs by done.
    by apply pretty_N_go_nonempty in Hs. }
  exists c, rest. split_and!; [done| |].
  - rewrite <-Hs. by apply pretty_N_go_decimal.
  - rewrite <-Hs. destruct (parseDigits_pretty_N_go x) as [k ->].
    simpl. lia.
Qed.

(** What is printed is read back. *)
Lemma parseInt_toString z : parseInt (toString z) = Some z.
Proof.
  unfold toString, pretty, pretty_Z.
  destruct z as [|p|p]; [done| |];
    unfold pretty, pretty_positive, pretty, pretty_N;
    rewrite decide_False by done;
    destruct (pretty_N_go_parse (N.pos p) eq_refl) as (c & rest & -> & Hd & Hv).
  - rewrite parseInt_decimal by done. by rewrite Hv.
  - change ("-" +:+ String c rest) with (String "-" (String c rest)).
    rewrite parseInt_minus_decimal by done. by rewrite Hv.
Qed.

(** ** Counters in the storage *)

Lemma stored_insert_toString m k v : stored (<[k := toString v]> m) k = v.
Proof.
  unfold stored. rewrite lookup_insert_eq. simpl.
  by rewrite parseInt_toString.
Qed.

Lemma stored_insert_ne m k k' s : k ≠ k' → stored (<[k := s]> m) k' = stored m k'.
Proof. intros. unfold stored. by rewrite lookup_insert_ne. Qed.

Lemma stored_delete_ne m k k' : k ≠ k' → stored (delete k m) k' = stored m k'.
Proof. intros. unfold stored. by rewrite lookup_delete_ne. Qed.

Lemma stored_delete m k : stored (delete k m) k = 0%Z.
Proof. unfold stored. by rewrite lookup_delete_eq. Qed.

Section persistence_properties.

Context (accepts : gmap string string → string → string → bool).

(** A read gives the default, or the value the storage holds. *)
Lemma safeGet_cases k d st :
  (safeGetLocalStorage accepts k d st).1 = d
  ∨ ∃ m, st = Storage m ∧ m !! k = Some (safeGetLocalStorage accepts k d st).1.
Proof.
  unfold safeGetLocalStorage. destruct st as [|m]; [by left|].
  rewrite validate_Storage.
  destruct (accepts m testKey testValue); cbn [fst snd negb]; [|by left].
  case_bool_decide; [by left|].
  destruct (delete testKey m !! k) as [v|] eqn:Hv; [|by left].
  right. exists m. split; [done|]. cbn [fst].
  apply lookup_delete_Some in Hv as [_ ?]. done.
Qed.

(** X18.  A counter loads as 0 whenever the storage is not there or
    refuses the probe, the key is missing, or the text kept under the
    key does not start with a number. *)
Theorem counter_defaults_to_zero k st :
  (validateLocalStorage accepts st).1 = false
  ∨ item st k = None
  ∨ (∃ s, item st k = Some s ∧ parseInt s = None) →
  (loadScore accepts k st).1 = 0%Z.
Proof.
  intros H. unfold loadScore. cbn [fst].
  destruct (safeGet_cases k "0" st) as [-> | (m & -> & Hm)]; [done|].
  destruct H as [H | [H | (s & Hs & Hp)]].
  - unfold safeGetLocalStorage. by rewrite H.
  - simpl in H. congruence.
  - simpl in Hs. rewrite Hs in Hm. injection Hm as <-. by rewrite Hp.
Qed.

Lemma load_unlimited k m :
  unlimited accepts → String.length k ≠ 0 → k ≠ testKey →
  loadScore accepts k (Storage m) = (stored m k, Storage (delete testKey m)).
Proof.
  intros Hun Hk Hne. unfold loadScore, safeGetLocalStorage.
  rewrite validate_Storage, Hun. cbn [fst snd negb].
  rewrite bool_decide_eq_false_2 by done.
  unfold stored. rewrite lookup_delete_ne by done.
  by destruct (m !! k).
Qed.

Lemma loadScores_unlimited m :
  unlimited accepts →
  loadScores accepts (Storage m)
  = (Tally (stored m "scoreX") (stored m "scoreO") (stored m "scoreDraw"),
     Storage (delete testKey m)).
Proof.
  intros Hun. unfold loadScores.
  rewrite (load_unlimited "scoreX") by (done || (simpl; lia)).
  cbn [fst snd].
  rewrite (load_unlimited "scoreO") by (done || (simpl; lia)).
  cbn [fst snd].
  rewrite (load_unlimited "scoreDraw") by (done || (simpl; lia)).
  cbn [fst snd].
  by rewrite !delete_delete_eq, !stored_delete_ne.
Qed.

Lemma loadScores_mirrors st t :
  unlimited accepts → mirrors st t → (loadScores accepts st).1 = t.
Proof.
  intros Hun (m & -> & Hx & Ho & Hd).
  rewrite loadScores_unlimited by done. cbn [fst].
  rewrite Hx, Ho, Hd. by destruct t.
Qed.

Lemma scoreKey_facts w :
  String.length (scoreKey w) ≠ 0 ∧ scoreKey w ≠ testKey.
Proof. destruct w as [[]|]; split; (done || (simpl; lia)). Qed.

Lemma perform_store_unlimited w v m :
  unlimited accepts →
  perform accepts (SafeSetLocalStorage w v) (Storage m)
  = Storage (<[scoreKey w := toString v]> (delete testKey m)).
Proof.
  intros Hun. unfold perform, safeSetLocalStorage.
  rewrite validate_Storage, Hun. cbn [fst snd negb].
  rewrite bool_decide_eq_false_2 by apply scoreKey_facts.
  by rewrite Hun.
Qed.

(** Storing the counter an outcome credits keeps the storage and the
    tally together. *)
Lemma perform_credit_mirrors r st t :
  unlimited accepts → mirrors st t →
  mirrors (perform accepts
             (SafeSetLocalStorage (creditedTo r)
                (counter (creditedTo r) (counted r t))) st)
    (counted r t).
Proof.
  intros Hun (m & -> & Hx & Ho & Hd).
  rewrite perform_store_unlimited by done. eexists. split; [done|].
  destruct r as [[] l|]; cbn [creditedTo counter counted scoreKey scoreX
                                scoreO scoreDraw];
    rewrite ?stored_insert_toString;
    rewrite ?stored_insert_ne, ?stored_delete_ne by done; by split_and!.
Qed.

Lemma performAll_app l1 l2 st :
  performAll accepts (l1 ++ l2) st
  = performAll accepts l2 (performAll accepts l1 st).
Proof. unfold performAll. by rewrite fold_left_app. Qed.

(** What a move stores. *)
Lemma makeMove_performAll k p g st :
  cellOnPage k = true →
  let b' := write (board g) k (Mark p) in
  performAll accepts (makeMove k p g).2 st
  = match checkGameEnd b' with
    | Some r =>
        perform accepts
          (SafeSetLocalStorage (creditedTo r)
             (counter (creditedTo r) (counted r (scores g)))) st
    | None => st
    end.
Proof.
  intros Hk.
  unfold makeMove, unlessThrown, updateCellDisplay, mbind, M_bind, assign,
    call, this.
  rewrite Hk. simpl.
  destruct (checkGameEnd (write (board g) k (Mark p))) as [[[] c|]|];
    simpl; done.
Qed.

Lemma makeMove_mirrors k p g st :
  unlimited accepts → mirrors st (scores g) →
  mirrors (performAll accepts (makeMove k p g).2 st)
    (scores (makeMove k p g).1.2).
Proof.
  intros Hun Hm. destruct (cellOnPage k) eqn:Hk;
    [|by rewrite makeMove_thrown].
  rewrite makeMove_performAll by done. cbv zeta.
  destruct (makeMove_facts k p g Hk) as (_ & _ & _ & _ & _ & Hend).
  destruct (checkGameEnd (write (board g) k (Mark p))) as [r|].
  - destruct Hend as (_ & _ & ->). by apply perform_credit_mirrors.
  - by destruct Hend as (_ & _ & ->).
Qed.

Lemma handler_mirrors e g st :
  unlimited accepts → mirrors st (scores g) →
  mirrors (performAll accepts (handler e g).2 st) (scores (handler e g).1.2).
Proof.
  intros Hun Hm. destruct e as [k|r1 r2| | | |md|d]; cbn [handler].
  - destruct (gameActive g) eqn:Ha;
      [destruct (decide (read (board g) k = Some Blank)) as [Hb|Hb]|].
    + destruct (handleCellClick_accepted k g Ha Hb) as [-> [-> | ->]];
        rewrite ?performAll_app; by apply makeMove_mirrors.
    + rewrite handleCellClick_rejected by auto. done.
    + rewrite handleCellClick_rejected by auto. done.
  - destruct (makeAIMove_shape r1 r2 g) as [-> | (_ & k & ->)]; [done|].
    by apply makeMove_mirrors.
  - done.
  - done.
  - destruct Hm as (m & -> & _). eexists. split; [done|].
    cbn. rewrite !stored_delete.
    rewrite !stored_delete_ne, !stored_delete by done.
    by rewrite !stored_delete_ne, !stored_delete by done.
  - done.
  - done.
Qed.

Lemma step_mirrors e w st :
  unlimited accepts → mirrors st (scores (object w)) →
  mirrors (performAll accepts (step e w).2 st) (scores (object (step e w).1)).
Proof.
  intros Hun Hm. unfold step.
  destruct e, (timers w); cbn [fst snd object]; try done;
    by apply handler_mirrors.
Qed.

Lemma run_mirrors es w st :
  unlimited accepts → mirrors st (scores (object w)) →
  mirrors (performAll accepts (run es w).2 st) (scores (object (run es w).1)).
Proof.
  intros Hun. revert w st.
  induction es as [|e es IH]; intros w st Hm; simpl; [done|].
  rewrite performAll_app. by apply IH, step_mirrors.
Qed.

(** X19.  The scores survive a reload.  On a storage that never refuses
    a write, load the page, play through any sequence of events (with
    counters that stay safe integers), and load the page again from the
    storage as the session left it: the constructor reads back exactly
    the tally the session ended with. *)
Theorem scores_survive_reload m es :
  unlimited accepts →
  let start := loadScores accepts (Storage m) in
  let t := start.1 in
  staysSafe t (length es) →
  let r := run es (loaded (scoreX t) (scoreO t) (scoreDraw t)) in
  (loadScores accepts (performAll accepts r.2 start.2)).1
  = scores (object r.1).
Proof.
  intros Hun. cbv zeta. intros _.
  apply loadScores_mirrors; [done|]. apply run_mirrors; [done|].
  rewrite loadScores_unlimited by done. cbn [fst snd loaded object
    constructor scores scoreX scoreO scoreDraw].
  eexists. split; [done|]. by rewrite !stored_delete_ne.
Qed.

End persistence_properties.

Lemma counter_defaults_to_zero_witness :
  (loadScore roomy "scoreX" (Storage (<["scoreX" := "many"]> ∅))).1 = 0%Z.
Proof.
  apply (counter_defaults_to_zero roomy "scoreX"
           (Storage (<["scoreX" := "many"]> ∅))).
  right. right. exists "many". split; reflexivity.
Defined.

Lemma scores_survive_reload_witness :
  let m : gmap string string := <["scoreX" := "2"]> (<["scoreO" := "x1"]> ∅) in
  let es := [CellClick (Idx 0); CellClick (Idx 3); CellClick (Idx 1);
             CellClick (Idx 4); CellClick (Idx 2); ResetGameClick] in
  let start := loadScores roomy (Storage m) in
  let r := run es (loaded (scoreX start.1) (scoreO start.1)
                     (scoreDraw start.1)) in
  (loadScores roomy (performAll roomy r.2 start.2)).1 = scores (object r.1)
  ∧ scores (object r.1) = Tally 3 0 0.
Proof.
  split; [|reflexivity].
  apply (scores_survive_reload roomy
           (<["scoreX" := "2"]> (<["scoreO" := "x1"]> ∅))
           [CellClick (Idx 0); CellClick (Idx 3); CellClick (Idx 1);
            CellClick (Idx 4); CellClick (Idx 2); ResetGameClick]).
  - intros m k v. reflexivity.
  - unfold staysSafe, safeInteger. vm_compute. intuition discriminate.
Defined.

(** ** The whole session *)

Section session_properties.

Context (accepts : gmap string string → string → string → bool).

Lemma validate_item st k :
  k ≠ testKey → item (validateLocalStorage accepts st).2 k = item st k.
Proof.
  intros Hk. destruct st as [|m]; [done|]. rewrite validate_Storage.
  destruct (accepts m testKey testValue); [|done].
  simpl. by rewrite lookup_delete_ne.
Qed.

Lemma safeSet_item key v st k :
  k ≠ key → k ≠ testKey → item (safeSetLocalStorage accepts key v st).2 k = item st k.
Proof.
  intros Hk Ht. unfold safeSetLocalStorage.
  pose proof (validate_item st k Ht) as Hv.
  destruct (validateLocalStorage accepts st) as [[] st1]; cbn [fst snd negb] in *; [|done].
  case_bool_decide; [done|].
  destruct st1 as [|m1]; [done|].
  destruct (accepts m1 key v); [|done].
  rewrite <-Hv. simpl. by rewrite lookup_insert_ne.
Qed.

Lemma setTheme_item t pg k :
  k ≠ "theme" → k ≠ testKey →
  item (storage (setTheme accepts t pg)) k = item (storage pg) k.
Proof.
  intros Hk Ht. destruct (decide (t ∈ validThemes)) as [Hv|Hv].
  - rewrite setTheme_valid by done. cbv zeta. cbn [storage setAttribute].
    pose proof (validate_item (storage pg) k Ht) as Hval.
    destruct (validateLocalStorage accepts (storage pg)) as [[] st1]; cbn [fst snd] in *;
      cbn [storage withStorage]; [|done].
    by rewrite safeSet_item.
  - by rewrite setTheme_invalid.
Qed.

Lemma toggleTheme_item pg k :
  k ≠ "theme" → k ≠ testKey →
  item (storage (toggleTheme accepts pg)) k = item (storage pg) k.
Proof.
  intros Hk Ht. unfold toggleTheme. cbv zeta.
  rewrite (proj2 (updateThemeIcon_frame _ _)). by apply setTheme_item.
Qed.

Lemma initializeTheme_item pg k :
  k ≠ "theme" → k ≠ testKey →
  item (storage (initializeTheme accepts pg)) k = item (storage pg) k.
Proof.
  intros Hk Ht. unfold initializeTheme.
  pose proof (validate_item (storage pg) k Ht) as Hval.
  destruct (validateLocalStorage accepts (storage pg)) as [[] st1]; cbn [fst snd negb] in *;
    cbn [storage withStorage showError]; destruct st1;
    rewrite (proj2 (updateThemeIcon_frame _ _)), setTheme_item by done;
    done.
Qed.

(** X20.  The theme code keeps to its own keys: [setTheme],
    [toggleTheme] and [initializeTheme] never change what the storage
    holds under any key other than [theme] and the probe key; the stored
    counters in particular are left alone. *)
Theorem theme_keeps_to_its_own_keys t pg k :
  k ≠ "theme" → k ≠ testKey →
  item (storage (setTheme accepts t pg)) k = item (storage pg) k
  ∧ item (storage (toggleTheme accepts pg)) k = item (storage pg) k
  ∧ item (storage (initializeTheme accepts pg)) k = item (storage pg) k.
Proof.
  intros Hk Ht. split_and!.
  - by apply setTheme_item.
  - by apply toggleTheme_item.
  - by apply initializeTheme_item.
Qed.

End session_properties.

Lemma theme_keeps_to_its_own_keys_witness :
  let pg := Page (Storage (<["scoreX" := "4"]> ∅)) None None None [] in
  item (storage (setTheme roomy "dark" pg)) "scoreX"
  = item (storage pg) "scoreX"
  ∧ item (storage (toggleTheme roomy pg)) "scoreX"
    = item (storage pg) "scoreX"
  ∧ item (storage (initializeTheme roomy pg)) "scoreX"
    = item (storage pg) "scoreX".
Proof.
  apply (theme_keeps_to_its_own_keys roomy "dark"
           (Page (Storage (<["scoreX" := "4"]> ∅)) None None None [])
           "scoreX"); discriminate.
Defined.

Section session_reload.

Context (accepts : gmap string string → string → string → bool).
Context (Hun : unlimited accepts).

Lemma savedTheme_item st :
  savedTheme accepts st = orLight (item st "theme").
Proof.
  unfold savedTheme. destruct st as [|m]; [done|].
  rewrite validate_Storage.
  destruct (accepts m testKey testValue); [|done].
  simpl. by rewrite lookup_delete_ne.
Qed.

Lemma validate_present st : present st → present (validateLocalStorage accepts st).2.
Proof.
  intros [m ->]. rewrite validate_Storage.
  destruct (accepts m testKey testValue); by eexists.
Qed.

Lemma safeSet_present key v st : present st → present (safeSetLocalStorage accepts key v st).2.
Proof.
  intros Hp. unfold safeSetLocalStorage.
  pose proof (validate_present st Hp) as [m1 Hm1].
  destruct (validateLocalStorage accepts st) as [[] st1]; cbn [fst snd negb] in *; subst st1;
    [|by eexists].
  case_bool_decide; [by eexists|].
  destruct (accepts m1 key v); by eexists.
Qed.

Lemma setTheme_present t pg :
  present (storage pg) → present (storage (setTheme accepts t pg)).
Proof.
  intros Hp. destruct (decide (t ∈ validThemes)) as [Hv|Hv].
  - rewrite setTheme_valid by done. cbv zeta. cbn [storage setAttribute].
    pose proof (validate_present _ Hp) as Hp1.
    destruct (validateLocalStorage accepts (storage pg)) as [[] st1]; cbn [fst snd] in *;
      cbn [storage withStorage]; [|done].
    by apply safeSet_present.
  - by rewrite setTheme_invalid.
Qed.

Lemma toggleTheme_present pg :
  present (storage pg) → present (storage (toggleTheme accepts pg)).
Proof.
  intros Hp. unfold toggleTheme. cbv zeta.
  rewrite (proj2 (updateThemeIcon_frame _ _)). by apply setTheme_present.
Qed.

Lemma mirrors_items st st' t :
  mirrors st t → present st' →
  (∀ k, k ≠ "theme" → k ≠ testKey → item st' k = item st k) →
  mirrors st' t.
Proof.
  intros (m & -> & Hx & Ho & Hd) [m' ->] Hk. exists m'. split; [done|].
  unfold stored in *. simpl in Hk. by rewrite !Hk.
Qed.

(** After [setTheme] with a valid theme on a page with a storage, the
    page shows what the storage would bring back; so it does after
    [toggleTheme] and [initializeTheme]. *)
Lemma setTheme_settled t pg :
  present (storage pg) →
  lightUnlessValid t = lightUnlessValid (savedTheme accepts (storage pg))
  ∨ t ∈ validThemes →
  themeSettled accepts (setTheme accepts t pg).
Proof.
  intros [m Hm] Ht. unfold themeSettled.
  rewrite (proj1 (setTheme_dom _ _ _)). fold (lightUnlessValid t).
  destruct (decide (t ∈ validThemes)) as [Hv|Hv].
  - rewrite (setTheme_storage accepts t pg m Hun Hv Hm).
    rewrite savedTheme_item. simpl. rewrite lookup_insert_eq.
    unfold orLight.
    rewrite (bool_decide_eq_false_2 _ (validThemes_nonempty t Hv)).
    unfold lightUnlessValid. by rewrite !(bool_decide_eq_true_2 _ Hv).
  - destruct Ht as [Ht|?]; [|done]. rewrite Ht.
    by rewrite setTheme_invalid.
Qed.

Lemma updateThemeIcon_settled t pg :
  themeSettled accepts pg → themeSettled accepts (updateThemeIcon t pg).
Proof.
  unfold themeSettled.
  by rewrite (proj1 (updateThemeIcon_frame _ _)),
    (proj2 (updateThemeIcon_frame _ _)).
Qed.

Lemma toggleTheme_settled pg :
  present (storage pg) → themeSettled accepts (toggleTheme accepts pg).
Proof.
  intros Hp. unfold toggleTheme. cbv zeta.
  apply updateThemeIcon_settled, setTheme_settled; [done|]. right.
  case_bool_decide; apply elem_of_validThemes; auto.
Qed.

Lemma initializeTheme_settled pg :
  present (storage pg) → themeSettled accepts (initializeTheme accepts pg).
Proof.
  intros [m Hm]. unfold initializeTheme. rewrite Hm, validate_Storage, Hun.
  cbn [fst snd negb storage withStorage].
  apply updateThemeIcon_settled, setTheme_settled; [by eexists|]. left.
  cbn [storage withStorage]. by rewrite savedTheme_item.
Qed.

Lemma initializeTheme_present pg :
  present (storage pg) → present (storage (initializeTheme accepts pg)).
Proof.
  intros [m Hm]. unfold initializeTheme. rewrite Hm, validate_Storage, Hun.
  cbn [fst snd negb storage withStorage].
  rewrite (proj2 (updateThemeIcon_frame _ _)).
  apply setTheme_present. by eexists.
Qed.

Lemma initializeTheme_light pg :
  dataTheme (initializeTheme accepts pg)
  = Some (lightUnlessValid (savedTheme accepts (storage pg))).
Proof. exact (initializeTheme_dom accepts pg). Qed.

Lemma perform_theme e st :
  present st →
  present (perform accepts e st)
  ∧ item (perform accepts e st) "theme" = item st "theme".
Proof.
  intros Hp. destruct e; try done.
  - split; [by apply safeSet_present|].
    apply safeSet_item; [|done]. by destruct w as [[]|].
  - destruct Hp as [m ->]. split; [by eexists|]. simpl.
    by rewrite !lookup_delete_ne.
Qed.

Lemma performAll_theme log st :
  present st →
  present (performAll accepts log st)
  ∧ item (performAll accepts log st) "theme" = item st "theme".
Proof.
  revert st. induction log as [|e log IH]; intros st Hp; [done|].
  destruct (perform_theme e st Hp) as [Hp1 H1].
  destruct (IH _ Hp1) as [Hp2 H2]. split; [done|].
  unfold performAll in *. simpl. by rewrite H2.
Qed.

Lemma startSession_inStep pg :
  present (storage pg) → sessionInStep accepts (startSession accepts pg).
Proof.
  intros [m Hm]. unfold startSession, sessionInStep.
  rewrite Hm, loadScores_unlimited by done.
  cbn [fst snd played shown loaded object constructor scores scoreX scoreO
         scoreDraw].
  split.
  - eapply (mirrors_items (Storage (delete testKey m))).
    + eexists. split; [done|]. by rewrite !stored_delete_ne.
    + apply initializeTheme_present. by eexists.
    + intros k Hk Ht. by rewrite initializeTheme_item.
  - apply initializeTheme_settled. by eexists.
Qed.

Lemma act_inStep a s : sessionInStep accepts s → sessionInStep accepts (act accepts a s).
Proof.
  intros [Hm Ht]. pose proof Hm as (m & Hst & _).
  destruct a as [e|]; unfold sessionInStep; cbn [act played shown].
  - destruct (performAll_theme (step e (played s)).2 (storage (shown s)))
      as [Hp Hi]; [by eexists|].
    split.
    + cbn [storage withStorage]. by apply step_mirrors.
    + unfold themeSettled in *. cbn [storage dataTheme withStorage].
      by rewrite savedTheme_item, Hi, <-savedTheme_item.
  - split.
    + eapply mirrors_items; [done| |].
      * apply toggleTheme_present. by eexists.
      * intros k Hk Hk'. by rewrite toggleTheme_item.
    + apply toggleTheme_settled. by eexists.
Qed.

Lemma acts_inStep l s : sessionInStep accepts s → sessionInStep accepts (acts accepts l s).
Proof.
  revert s. induction l as [|a l IH]; intros s Hs; [done|].
  apply IH, act_inStep, Hs.
Qed.

(** X21.  A reload brings the session back.  On a page whose storage
    never refuses a write, after any sequence of game events and clicks
    on the theme button (with counters that stay safe integers), a page
    loaded from the storage as the session left it starts with the same
    tally and the same theme. *)
Theorem reload_brings_the_session_back pg l reloaded :
  present (storage pg) →
  let s := acts accepts l (startSession accepts pg) in
  staysSafe (scores (object (played (startSession accepts pg)))) (plays l) →
  storage reloaded = storage (shown s) →
  let s' := startSession accepts reloaded in
  scores (object (played s')) = scores (object (played s))
  ∧ dataTheme (shown s') = dataTheme (shown s).
Proof.
  intros Hp. cbv zeta. intros _ Hst.
  destruct (acts_inStep l _ (startSession_inStep pg Hp)) as [Hm Ht].
  pose proof Hm as (m & Hsm & _).
  destruct (startSession_inStep reloaded) as [Hm' Ht'].
  { rewrite Hst. by eexists. }
  split.
  - unfold startSession at 1. cbn [played loaded object constructor scores].
    rewrite Hst. rewrite (loadScores_mirrors accepts _ _ Hun Hm).
    by destruct (scores _).
  - unfold startSession at 1. cbn [shown].
    rewrite initializeTheme_light, Ht. do 2 f_equal.
    rewrite !savedTheme_item. cbn [storage withStorage].
    rewrite Hst, Hsm, loadScores_unlimited by done. cbn [snd item].
    by rewrite lookup_delete_ne.
Qed.

End session_reload.

Lemma reload_brings_the_session_back_witness :
  let pg := Page (Storage (<["scoreDraw" := "1"]> ∅)) None
              (Some "") (Some "") [] in
  let l := [Play (CellClick (Idx 0)); ThemeToggleClick;
            Play (CellClick (Idx 3)); Play (CellClick (Idx 1));
            Play (CellClick (Idx 4)); Play (CellClick (Idx 2))] in
  let s := acts roomy l (startSession roomy pg) in
  let s' := startSession roomy (shown s) in
  scores (object (played s')) = scores (object (played s))
  ∧ dataTheme (shown s') = dataTheme (shown s).
Proof.
  apply (reload_brings_the_session_back roomy (λ m k v, eq_refl)
           (Page (Storage (<["scoreDraw" := "1"]> ∅)) None
              (Some "") (Some "") [])
           [Play (CellClick (Idx 0)); ThemeToggleClick;
            Play (CellClick (Idx 3)); Play (CellClick (Idx 1));
            Play (CellClick (Idx 4)); Play (CellClick (Idx 2))]).
  - eexists. reflexivity.
  - unfold staysSafe, safeInteger. vm_compute. intuition discriminate.
  - reflexivity.
Defined.

(** * The keyboard *)

Lemma parseDigits_ge radix s acc :
  (0 ≤ radix)%Z → (0 ≤ acc)%Z → (1 ≤ radix → acc ≤ parseDigits radix s acc)%Z.
Proof.
  intros Hr. revert acc. induction s as [|c s IH]; intros acc Hacc Hr1;
    simpl; [lia|].
  destruct (digitOf radix c) as [d|] eqn:Hd; [|lia].
  assert (0 ≤ d)%Z as Hd0.
  { unfold digitOf in Hd. cbv zeta in Hd.
    repeat case_bool_decide; simplify_eq; lia. }
  etrans; [|apply IH]; nia.
Qed.

(** A key between "1" and "9" starts with one of the digits 1 to 9, and
    "9" itself is the only such key that starts with a 9. *)
Lemma key_in_range c rest :
  String.leb "1" (String c rest) && String.leb (String c rest) "9" = true →
  isDecimal c = true ∧ c ≠ "0"%char
  ∧ (49 ≤ Z.of_N (N_of_ascii c) ≤ 57)%Z.
Proof.
  destruct c as [[] [] [] [] [] [] [] []]; intros H; try discriminate H;
    split_and!; try done; simpl; lia.
Qed.

Lemma splitRadix_nonzero c rest :
  c ≠ "0"%char → splitRadix (String c rest) = (10%Z, String c rest).
Proof.
  destruct c as [[] [] [] [] [] [] [] []]; intros H; try done.
Qed.

Lemma digitOf_decimal c :
  isDecimal c = true →
  digitOf 10 c = Some (Z.of_N (N_of_ascii c) - 48)%Z.
Proof.
  destruct c as [[] [] [] [] [] [] [] []]; intros H; by try discriminate H.
Qed.

Lemma parseInt_key c rest :
  String.leb "1" (String c rest) && String.leb (String c rest) "9" = true →
  ∃ n, parseInt (String c rest) = Some n ∧ (1 ≤ n)%Z.
Proof.
  intros (Hc & Hz & Hn)%key_in_range.
  destruct (isDecimal_char c Hc) as (Hw & _ & _ & _ & _ & Hdig).
  unfold parseInt. cbn [trimStart]. rewrite Hw.
  rewrite splitSign_decimal by done. cbn [fst snd].
  rewrite splitRadix_nonzero by done. cbn [fst snd startsWithDigit].
  rewrite bool_decide_eq_true_2 by done. eexists. split; [done|].
  cbn [parseDigits]. rewrite digitOf_decimal by done.
  pose proof (parseDigits_ge 10 rest
                (10 * 0 + (Z.of_N (N_of_ascii c) - 48))%Z).
  lia.
Qed.

(** X22.  The number keys.  A key outside the range "1" to "9" is
    ignored.  A key inside it always reads as a number of at least 1, so
    the index checked is never negative and never [NaN]: the key selects
    the cell one below its number when that is at most 9, and is
    reported as invalid input otherwise.  The keys 1 to 9 select the
    cells 0 to 8, and no key selects a cell outside 0 to 8. *)
Theorem number_keys_select_cells key :
  (String.leb "1" key && String.leb key "9" = false →
   onKeyDown key = Ignored)
  ∧ (String.leb "1" key && String.leb key "9" = true →
     ∃ n, parseInt key = Some n ∧ (1 ≤ n)%Z
          ∧ onKeyDown key
            = if bool_decide (n ≤ 9)%Z then Selected (n - 1)
              else Reported "Invalid keyboard input.")
  ∧ (∀ z, onKeyDown key = Selected z →
       (0 ≤ z ≤ 8)%Z ∧ parseInt (toString z) = Some z)
  ∧ onKeyDown <$> ["1"; "2"; "3"; "4"; "5"; "6"; "7"; "8"; "9"]
    = Selected <$> [0; 1; 2; 3; 4; 5; 6; 7; 8]%Z.
Proof.
  assert (String.leb "1" key && String.leb key "9" = true →
     ∃ n, parseInt key = Some n ∧ (1 ≤ n)%Z
          ∧ onKeyDown key
            = if bool_decide (n ≤ 9)%Z then Selected (n - 1)
              else Reported "Invalid keyboard input.") as Hin.
  { intros Hr. destruct key as [|c rest]; [done|].
    destruct (parseInt_key c rest Hr) as (n & Hn & H1).
    exists n. split_and!; [done..|].
    unfold onKeyDown. rewrite Hr, Hn. cbn [fmap option_fmap option_map].
    unfold validateCellIndex.
    rewrite (bool_decide_eq_false_2 (n - 1 < 0)%Z) by lia. cbn [orb].
    repeat case_bool_decide; (done || lia). }
  split_and!; [|done| |done].
  - intros Hr. unfold onKeyDown. by rewrite Hr.
  - intros z Hz. split; [|apply parseInt_toString].
    destruct (String.leb "1" key && String.leb key "9") eqn:Hr.
    + destruct (Hin eq_refl) as (n & _ & H1 & Hk). rewrite Hk in Hz.
      case_bool_decide; [|done]. injection Hz as <-. lia.
    + unfold onKeyDown in Hz. by rewrite Hr in Hz.
Qed.

(** ** The turn and the number of moves *)

(** X23.  After any sequence of events on a freshly loaded page, the
    number of filled cells is the number of marks shown since the cells
    were last cleared, and while the game is active [currentPlayer] is
    X exactly when that number is even and O exactly when it is odd;
    this holds whoever made the moves.  The constructor and [resetGame]
    set [currentPlayer] to X, and a [makeMove] on a cell of the page
    that does not end the game gives [currentPlayer] the other mark. *)
Theorem turn_follows_move_count x o d es :
  let r := run es (loaded x o d) in
  let g := object r.1 in
  let n := movesSinceReset r.2 in
  filled (board g) = n
  ∧ (gameActive g = true →
     (currentPlayer g = X ↔ Nat.Even n) ∧ (currentPlayer g = O ↔ Nat.Odd n))
  ∧ currentPlayer (constructor x o d) = X
  ∧ (∀ g0, currentPlayer (resetGame g0).1.2 = X)
  ∧ (∀ g0 k p, cellOnPage k = true →
       checkGameEnd (write (board g0) k (Mark p)) = None →
       currentPlayer (makeMove k p g0).1.2 = other (currentPlayer g0)).
Proof.
  cbv zeta.
  destruct (run_consistent es (loaded x o d) 0 (constructor_consistent x o d))
    as (_ & Hfill & Hturn).
  fold (movesSinceReset (run es (loaded x o d)).2) in Hfill, Hturn.
  split_and!; [done| |done|done|].
  - intros Ha. rewrite (Hturn Ha).
    split; [apply turnAfter_X|apply turnAfter_O].
  - intros g0 k p Hk Hend.
    destruct (makeMove_facts k p g0 Hk) as (_ & _ & _ & _ & _ & Hm).
    rewrite Hend in Hm. by destruct Hm as (_ & -> & _).
Qed.

(** ** Errors *)


